(** * Session state, overload matching and document reduction of EdgeDB

    A shallow embedding of three source files:
    - [edb/server/backend/dbview.py]  (module [DbView]),
    - [edgedb/lang/edgeql/compiler/func.py]  (module [Func]),
    - [edgedb/lang/graphql/parser/grammar/document.py]  (module [Document]).

    Python objects that are mutated in place are modelled by explicit state
    passing; an exception leaves the mutations done before it in place, so
    every operation returns its outcome together with the state reached. *)

From Stdlib Require Import ZArith Lia.
From stdpp Require Import gmap strings list fin_maps pretty.

(** ** The LRU mapping used for the compiled-query caches *)

Module LRU.
Section Lru.
Context {K V : Type} `{EqDecision K}.

(** Modelled from the spec: [edb.common.lru.LRUMapping] is not part of the
    sources at hand.  The spec asks for "a bounded-capacity cache with
    least-recently-used eviction supporting insert, lookup-or-absent, and
    full clear, parameterized by a maximum-entries constant".  The entries
    are kept oldest first; a lookup that hits and an insert both make the
    key the most recently used one. *)
Record LRUMapping : Type := mkLRU {
  items : list (K * V);
  maxsize : nat
}.

Definition empty (n : nat) : LRUMapping := mkLRU [] n.

Fixpoint assoc (k : K) (l : list (K * V)) : option V :=
  match l with
  | [] => None
  | (k', v) :: l' => if decide (k' = k) then Some v else assoc k l'
  end.

Fixpoint remove (k : K) (l : list (K * V)) : list (K * V) :=
  match l with
  | [] => []
  | (k', v) :: l' =>
      if decide (k' = k) then remove k l' else (k', v) :: remove k l'
  end.

(** The mapping without the recency bookkeeping. *)
Definition peek (k : K) (m : LRUMapping) : option V := assoc k (items m).

(** [m.get(k)]: the value or absent; a hit refreshes the key. *)
Definition get (k : K) (m : LRUMapping) : option V * LRUMapping :=
  match assoc k (items m) with
  | Some v => (Some v, mkLRU (remove k (items m) ++ [(k, v)]) (maxsize m))
  | None => (None, m)
  end.

(** Dropping the oldest entry, as [popitem(last=False)] does: its key is
    gone from the mapping afterwards. *)
Definition evict (l : list (K * V)) : list (K * V) :=
  match l with
  | [] => []
  | (k0, _) :: _ => remove k0 l
  end.

(** [m[k] = v]: a new key may push the oldest entry out. *)
Definition set (k : K) (v : V) (m : LRUMapping) : LRUMapping :=
  match assoc k (items m) with
  | Some _ => mkLRU (remove k (items m) ++ [(k, v)]) (maxsize m)
  | None =>
      let l := items m ++ [(k, v)] in
      mkLRU (if (maxsize m <? length l)%nat then evict l else l) (maxsize m)
  end.

Definition clear (m : LRUMapping) : LRUMapping := mkLRU [] (maxsize m).

End Lru.
Arguments LRUMapping : clear implicits.
End LRU.

(** ** [edb/server/backend/dbview.py] *)

Module DbView.

(** [immutables.Map] values: maps compared by content. *)
Abbreviation Config := (gmap string string).
Abbreviation ModAliases := (gmap (option string) string).

(** The part of [dbstate.QueryUnit] that [dbview.py] reads. *)
Record QueryUnit : Type := mkQueryUnit {
  is_preparable : bool;
  starts_tx : bool;
  commits_tx : bool;
  rollbacks_tx : bool;
  savepoint_rollbacks : bool;
  has_ddl : bool;
  config : option Config;
  modaliases : option ModAliases;
  dbver : Z;
  txid : option Z
}.

(** [key = (eql, json_mode, self._modaliases, self._config)] *)
Abbreviation Key := (string * bool * ModAliases * Config)%type.
Abbreviation Cache := (LRU.LRUMapping Key QueryUnit).

Record Database : Type := mkDatabase {
  _name : string;
  _dbver : Z;
  _db_eql_to_compiled : Cache
}.

Record DatabaseConnectionView : Type := mkView {
  _user : string;
  _config : Config;
  _modaliases : ModAliases;
  _eql_to_compiled : Cache;
  _txid : option Z;
  _in_tx : bool;
  _in_tx_with_ddl : bool;
  _tx_error : bool;
  _config_before_tx : Config;
  _modaliases_before_tx : ModAliases
}.

(** What one session can reach: its view, the [Database] object the view
    points to ([self._db], shared with the other sessions), and the
    monotonic clock, given by its successive readings. *)
Record World : Type := mkWorld {
  clock : nat → Z;
  ticks : nat;
  db : Database;
  view : DatabaseConnectionView
}.

Inductive exn : Type :=
| TransactionError (msg : string)
| InternalServerError (msg : string)
| AssertionError.

Inductive result (A : Type) : Type :=
| Returned (a : A)
| Raised (e : exn).
Arguments Returned {A} a.
Arguments Raised {A} e.

(** Statements run on the world and either return or raise; the world
    reached is kept in both cases. *)
Definition M (A : Type) : Type := World → result A * World.

Definition ret {A} (a : A) : M A := λ w, (Returned a, w).

Definition bind {A B} (m : M A) (k : A → M B) : M B :=
  λ w, match m w with
       | (Returned a, w') => k a w'
       | (Raised e, w') => (Raised e, w')
       end.

Definition raise {A} (e : exn) : M A := λ w, (Raised e, w).

Notation "'do' x <- m ; k" := (bind m (λ x, k))
  (at level 10, x name, m at level 100, k at level 200).
Notation "m ;; k" := (bind m (λ _, k))
  (at level 100, k at level 200, right associativity).

Definition assert (b : bool) : M unit :=
  if b then ret tt else raise AssertionError.

Definition when (b : bool) (m : M unit) : M unit := if b then m else ret tt.

Definition self : M DatabaseConnectionView := λ w, (Returned (view w), w).
Definition self_db : M Database := λ w, (Returned (db w), w).

Definition put_view (v : DatabaseConnectionView) : M unit :=
  λ w, (Returned tt, mkWorld (clock w) (ticks w) (db w) v).

Definition put_db (d : Database) : M unit :=
  λ w, (Returned tt, mkWorld (clock w) (ticks w) d (view w)).

(** [time.monotonic_ns()]: the next reading of the clock. *)
Definition monotonic_ns : M Z :=
  λ w, (Returned (clock w (ticks w)),
        mkWorld (clock w) (S (ticks w)) (db w) (view w)).

(** Attribute assignments on the view. *)
Definition set_config (c : Config) (v : DatabaseConnectionView) :=
  mkView (_user v) c (_modaliases v) (_eql_to_compiled v) (_txid v) (_in_tx v)
    (_in_tx_with_ddl v) (_tx_error v) (_config_before_tx v)
    (_modaliases_before_tx v).
Definition set_modaliases (a : ModAliases) (v : DatabaseConnectionView) :=
  mkView (_user v) (_config v) a (_eql_to_compiled v) (_txid v) (_in_tx v)
    (_in_tx_with_ddl v) (_tx_error v) (_config_before_tx v)
    (_modaliases_before_tx v).
Definition set_eql_to_compiled (c : Cache) (v : DatabaseConnectionView) :=
  mkView (_user v) (_config v) (_modaliases v) c (_txid v) (_in_tx v)
    (_in_tx_with_ddl v) (_tx_error v) (_config_before_tx v)
    (_modaliases_before_tx v).
Definition set_txid (t : option Z) (v : DatabaseConnectionView) :=
  mkView (_user v) (_config v) (_modaliases v) (_eql_to_compiled v) t (_in_tx v)
    (_in_tx_with_ddl v) (_tx_error v) (_config_before_tx v)
    (_modaliases_before_tx v).
Definition set_in_tx (b : bool) (v : DatabaseConnectionView) :=
  mkView (_user v) (_config v) (_modaliases v) (_eql_to_compiled v) (_txid v) b
    (_in_tx_with_ddl v) (_tx_error v) (_config_before_tx v)
    (_modaliases_before_tx v).
Definition set_in_tx_with_ddl (b : bool) (v : DatabaseConnectionView) :=
  mkView (_user v) (_config v) (_modaliases v) (_eql_to_compiled v) (_txid v)
    (_in_tx v) b (_tx_error v) (_config_before_tx v) (_modaliases_before_tx v).
Definition set_tx_error (b : bool) (v : DatabaseConnectionView) :=
  mkView (_user v) (_config v) (_modaliases v) (_eql_to_compiled v) (_txid v)
    (_in_tx v) (_in_tx_with_ddl v) b (_config_before_tx v)
    (_modaliases_before_tx v).
Definition set_config_before_tx (c : Config) (v : DatabaseConnectionView) :=
  mkView (_user v) (_config v) (_modaliases v) (_eql_to_compiled v) (_txid v)
    (_in_tx v) (_in_tx_with_ddl v) (_tx_error v) c (_modaliases_before_tx v).
Definition set_modaliases_before_tx (a : ModAliases)
    (v : DatabaseConnectionView) :=
  mkView (_user v) (_config v) (_modaliases v) (_eql_to_compiled v) (_txid v)
    (_in_tx v) (_in_tx_with_ddl v) (_tx_error v) (_config_before_tx v) a.

Definition update (f : DatabaseConnectionView → DatabaseConnectionView)
  : M unit := do v <- self; put_view (f v).

(** Python truth values: an absent or empty map is false, and so is an
    absent or zero transaction id. *)
Definition truthy_map `{Countable K} {V} (o : option (gmap K V)) : bool :=
  match o with
  | Some m => bool_decide (m ≠ ∅)
  | None => false
  end.

Definition truthy_txid (t : option Z) : bool :=
  match t with
  | Some z => bool_decide (z ≠ 0%Z)
  | None => false
  end.

(** *** class Database *)

Section Defines.
(** Modelled from the spec: [defines._MAX_QUERIES_CACHE], "a
    deployment-tunable constant not fixed by this specification". *)
Variable _MAX_QUERIES_CACHE : nat.

Definition Database__init__ (name : string) : M Database :=
  do t <- monotonic_ns;
  ret (mkDatabase name t (LRU.empty _MAX_QUERIES_CACHE)).

Definition _invalidate_caches : M unit :=
  do d <- self_db;
  put_db (mkDatabase (_name d) (_dbver d) (LRU.clear (_db_eql_to_compiled d))).

Definition _signal_ddl : M unit :=
  do t <- monotonic_ns;
  do d <- self_db;
  put_db (mkDatabase (_name d) t (_db_eql_to_compiled d));;
  _invalidate_caches.

Definition _cache_compiled_query (key : Key) (compiled : QueryUnit) : M unit :=
  assert (is_preparable compiled);;
  do d <- self_db;
  let '(existing, c) := LRU.get key (_db_eql_to_compiled d) in
  put_db (mkDatabase (_name d) (_dbver d) c);;
  match existing with
  | Some e =>
      if (dbver compiled <? dbver e)%Z then ret tt
      else put_db (mkDatabase (_name d) (_dbver d) (LRU.set key compiled c))
  | None => put_db (mkDatabase (_name d) (_dbver d) (LRU.set key compiled c))
  end.

(** *** class DatabaseConnectionView *)

Definition _invalidate_local_cache : M unit :=
  update (λ v, set_eql_to_compiled (LRU.clear (_eql_to_compiled v)) v).

Definition _reset_tx_state : M unit :=
  update (set_txid None);;
  update (set_in_tx false);;
  update (set_in_tx_with_ddl false);;
  update (set_tx_error false);;
  update (λ v, set_config_before_tx (_config v) v);;
  update (λ v, set_modaliases_before_tx (_modaliases v) v);;
  _invalidate_local_cache.

Definition View__init__ (user : string) : M unit :=
  put_view (mkView user ∅ {[ None := "default" ]}
              (LRU.empty _MAX_QUERIES_CACHE) None false false false ∅ ∅);;
  _reset_tx_state.

Definition abort_tx : M unit :=
  do v <- self;
  (if negb (_in_tx v)
   then raise (InternalServerError "abort_tx(): not in transaction")
   else ret tt);;
  update (λ v, set_config (_config_before_tx v) v);;
  update (λ v, set_modaliases (_modaliases_before_tx v) v);;
  _reset_tx_state.

Definition rollback : M unit := _reset_tx_state.

Definition cache_compiled_query (eql : string) (json_mode : bool)
    (compiled : QueryUnit) : M unit :=
  assert (is_preparable compiled);;
  do v <- self;
  let key := (eql, json_mode, _modaliases v, _config v) in
  if _in_tx_with_ddl v then
    update (set_eql_to_compiled (LRU.set key compiled (_eql_to_compiled v)))
  else _cache_compiled_query key compiled.

Definition lookup_compiled_query (eql : string) (json_mode : bool)
  : M (option QueryUnit) :=
  do v <- self;
  if _tx_error v then ret None
  else
    let key := (eql, json_mode, _modaliases v, _config v) in
    if _in_tx_with_ddl v then
      let '(compiled, c) := LRU.get key (_eql_to_compiled v) in
      update (set_eql_to_compiled c);;
      ret compiled
    else
      do d <- self_db;
      let '(compiled, c) := LRU.get key (_db_eql_to_compiled d) in
      put_db (mkDatabase (_name d) (_dbver d) c);;
      match compiled with
      | Some u => if bool_decide (dbver u ≠ _dbver d) then ret None
                  else ret (Some u)
      | None => ret None
      end.

Definition tx_error : M unit :=
  do v <- self;
  when (_in_tx v) (update (set_tx_error true)).

Definition raise_in_tx_error : M unit :=
  raise (TransactionError
    "current transaction is aborted, commands ignored until end of transaction block").

Definition start (qu : QueryUnit) : M unit :=
  do v <- self;
  when (_tx_error v)
    (if savepoint_rollbacks qu || rollbacks_tx qu
     then update (set_tx_error false)
     else raise_in_tx_error);;
  when (starts_tx qu)
    (assert (negb (is_preparable qu));;
     update (set_in_tx true);;
     update (set_txid (txid qu)));;
  do v <- self;
  when (_in_tx v && negb (truthy_txid (_txid v)))
    (raise (InternalServerError "unset txid in transaction"));;
  do v <- self;
  when (_in_tx v && has_ddl qu) (update (set_in_tx_with_ddl true)).

Definition on_error (qu : QueryUnit) : M unit := tx_error.

Definition on_success (qu : QueryUnit) : M unit :=
  do v <- self;
  when (has_ddl qu || (_in_tx_with_ddl v && savepoint_rollbacks qu))
    _invalidate_local_cache;;
  do v <- self;
  when (negb (_in_tx v) && has_ddl qu) _signal_ddl;;
  when (truthy_map (config qu))
    (update (set_config (default ∅ (config qu))));;
  when (truthy_map (modaliases qu))
    (update (set_modaliases (default ∅ (modaliases qu))));;
  (if commits_tx qu then
     do v <- self;
     assert (_in_tx v);;
     when (_in_tx_with_ddl v) _signal_ddl;;
     _reset_tx_state
   else if rollbacks_tx qu then
     do v <- self;
     assert (_in_tx v);;
     assert (bool_decide (_config v = _config_before_tx v));;
     assert (bool_decide (_modaliases v = _modaliases_before_tx v));;
     _reset_tx_state
   else ret tt);;
  do v <- self;
  when (negb (_in_tx v))
    (update (λ v, set_config_before_tx (_config v) v);;
     update (λ v, set_modaliases_before_tx (_modaliases v) v)).

End Defines.

(** Running one unit: [start], the unit's execution (outside this file),
    then [on_success]. *)
Definition run_unit (qu : QueryUnit) : M unit := start qu;; on_success qu.

Fixpoint run_units (qus : list QueryUnit) : M unit :=
  match qus with
  | [] => ret tt
  | qu :: qus' => run_unit qu;; run_units qus'
  end.

(** *** Predicates used in the statements *)

(** The non-transactional baseline that [_reset_tx_state] establishes. *)
Definition tx_baseline (v : DatabaseConnectionView) : Prop :=
  _txid v = None ∧ _in_tx v = false ∧ _in_tx_with_ddl v = false
  ∧ _tx_error v = false
  ∧ _config_before_tx v = _config v
  ∧ _modaliases_before_tx v = _modaliases v
  ∧ LRU.items (_eql_to_compiled v) = [].

(** The invariant of the session fields. *)
Definition state_invariant (v : DatabaseConnectionView) : Prop :=
  _in_tx v = false →
  _tx_error v = false ∧ _txid v = None
  ∧ _config_before_tx v = _config v
  ∧ _modaliases_before_tx v = _modaliases v.

(** A unit that leaves the transaction open. *)
Definition keeps_tx_open (qu : QueryUnit) : Prop :=
  commits_tx qu = false ∧ rollbacks_tx qu = false.




Definition cached (key : Key) (w : World) : option QueryUnit :=
  LRU.peek key (_db_eql_to_compiled (db w)).


(** *** Sample sessions *)

Definition sample_unit (ver : Z) : QueryUnit :=
  mkQueryUnit true false false false false false None None ver None.

Definition sample_ddl : QueryUnit :=
  mkQueryUnit false false false false false true None None 5 None.

Definition sample_begin : QueryUnit :=
  mkQueryUnit false true false false false false None None 5 (Some 7%Z).

Definition sample_commit : QueryUnit :=
  mkQueryUnit false false true false false false None None 5 None.

Definition sample_rollback : QueryUnit :=
  mkQueryUnit false false false true false false None None 5 None.

Definition sample_set_config : QueryUnit :=
  mkQueryUnit false false false false false false
    (Some {[ "format" := "json" ]}) (Some {[ Some "m" := "std" ]}) 5 None.


(** A fresh session on a database stamped 5, with caches of [n] entries. *)
Definition sample_world (n : nat) : World :=
  mkWorld (λ i, 6 + Z.of_nat i)%Z 0
    (mkDatabase "db" 5 (LRU.empty n))
    (mkView "user" ∅ {[ None := "default" ]} (LRU.empty n)
       None false false false ∅ {[ None := "default" ]}).

(** The same session inside a transaction, with or without DDL. *)
Definition sample_world_in_tx (with_ddl : bool) : World :=
  mkWorld (λ i, 6 + Z.of_nat i)%Z 0
    (mkDatabase "db" 5 (LRU.empty 8))
    (mkView "user" ∅ {[ None := "default" ]} (LRU.empty 8)
       (Some 7%Z) true with_ddl false ∅ {[ None := "default" ]}).

End DbView.

(** ** [edgedb/lang/edgeql/compiler/func.py] *)

Module Func.

Inductive exn : Type :=
| AttributeError
| IndexError
| EdgeQLError (msg : string).

Inductive result (A : Type) : Type :=
| Returned (a : A)
| Raised (e : exn).
Arguments Returned {A} a.
Arguments Raised {A} e.

Definition bind {A B} (r : result A) (k : A → result B) : result B :=
  match r with
  | Returned a => k a
  | Raised e => Raised e
  end.

(** [itertools.zip_longest(l1, l2)]: the shorter side is padded with
    [None]. *)
Fixpoint zip_longest {A B} (l1 : list A) (l2 : list B)
  : list (option A * option B) :=
  match l1 with
  | [] => map (λ b, (None, Some b)) l2
  | a :: l1' =>
      match l2 with
      | [] => (Some a, None) :: zip_longest l1' []
      | b :: l2' => (Some a, Some b) :: zip_longest l1' l2'
      end
  end.

(** [l[i]] for a Python list: a negative index counts from the end, an
    index out of range raises [IndexError]. *)
Definition py_index {A} (l : list A) (i : Z) : result A :=
  let n := Z.of_nat (length l) in
  let j := if (i <? 0)%Z then (n + i)%Z else i in
  if ((0 <=? j) && (j <? n))%Z then
    match l !! Z.to_nat j with
    | Some a => Returned a
    | None => Raised IndexError
    end
  else Raised IndexError.

(** [enumerate(l, 1)] *)
Fixpoint enumerate {A} (start : Z) (l : list A) : list (Z * A) :=
  match l with
  | [] => []
  | a :: l' => (start, a) :: enumerate (start + 1) l'
  end.

Section Schema.
(** The schema classes ([s_obj.Class]) and their subclass test
    ([at.issubclass(pt)]) come from the schema layer. *)
Variable Class : Type.
Variable issubclass : Class → Class → bool.

(** What the overload matching reads of an [s_func.Function]; an absent
    [paramtypes] behaves as the empty list under [not func.paramtypes]. *)
Record Function : Type := mkFunction {
  paramtypes : list Class;
  paramdefaults : list (option string);
  varparam : option Z;
  aggregate : bool;
  initial_value : option string
}.

(** The first loop of [check_function]: a call without arguments. *)
Fixpoint check_defaults (func : Function) (pds : list (Z * option string))
  : bool :=
  match pds with
  | [] => true
  | (pi, pd) :: rest =>
      if bool_decide (pd = None) && bool_decide (Some pi ≠ varparam func)
      then false
      else check_defaults func rest
  end.

(** The second loop of [check_function], over the padded pairs. *)
Fixpoint check_pairs (func : Function)
    (pairs : list (option Class * option Class)) : result bool :=
  match pairs with
  | [] => Returned true
  | (pt, at_) :: rest =>
      let continue (pt : Class) :=
        match at_ with
        | None => Raised AttributeError
        | Some a => if issubclass a pt then check_pairs func rest
                    else Returned false
        end in
      match pt with
      | Some pt => continue pt
      | None =>
          match varparam func with
          | Some vp => bind (py_index (paramtypes func) (vp - 1)) continue
          | None => Returned false
          end
      end
  end.

Definition check_function (func : Function) (arg_types : list Class)
  : result bool :=
  match paramtypes func with
  | [] =>
      match arg_types with
      | [] => Returned true
      | _ :: _ => Returned false
      end
  | _ :: _ =>
      match arg_types with
      | [] => Returned (check_defaults func (enumerate 1 (paramdefaults func)))
      | _ :: _ => check_pairs func (zip_longest (paramtypes func) arg_types)
      end
  end.

(** The overload selection of [compile_FunctionCall] (its [for ... else]
    loop over [funcs]); the rest of that function builds IR nodes and is
    not modelled. *)
Fixpoint compile_FunctionCall_select (funcname : string)
    (funcs : list Function) (arg_types : list Class) : result Function :=
  match funcs with
  | [] => Raised (EdgeQLError ("could not find a function variant " +:+ funcname))
  | funcobj :: rest =>
      bind (check_function funcobj arg_types) (λ ok,
        if ok then Returned funcobj
        else compile_FunctionCall_select funcname rest arg_types)
  end.

End Schema.
Arguments paramtypes {Class} _.
Arguments paramdefaults {Class} _.
Arguments varparam {Class} _.
Arguments aggregate {Class} _.
Arguments initial_value {Class} _.
Arguments mkFunction {Class} _ _ _ _ _.
Arguments check_defaults {Class} _ _.
Arguments check_pairs {Class} _ _ _.
Arguments check_function {Class} _ _ _.
Arguments compile_FunctionCall_select {Class} _ _ _ _.

(** *** A sample schema *)

Inductive sample_class : Type := Int64 | Str | Anytype.

Definition sample_issubclass (a p : sample_class) : bool :=
  match a, p with
  | _, Anytype => true
  | Int64, Int64 => true
  | Str, Str => true
  | _, _ => false
  end.



Definition sample_g : Function sample_class :=
  mkFunction [Str; Int64] [None; None] None false None.

End Func.

(** ** [edgedb/lang/edgeql/compiler/func.py]: the arguments of a call *)

Module FuncArgs.

Section Compiler.
(** The expression compiler ([dispatch.compile] followed by
    [setgen.ensure_set]) and the type inference ([irutils.infer_type]) come
    from other modules of the compiler.  The compiler works on the context
    [ctx], which it may change, and may raise; the inference reads the
    schema of the context. *)
Variables Expr IR Class Ctx Exn : Type.
Variable compile_set : Expr → Ctx → (Exn + IR) * Ctx.
Variable infer_type : IR → Ctx → option Class.

(** An element of [expr.args]: a [qlast.NamedArg], or any other
    expression. *)
Inductive CallArg : Type :=
| NamedArg (name : string) (arg : Expr)
| Positional (a : Expr).

Inductive exn : Type :=
| EdgeQLError (msg : string)
| Propagated (e : Exn).

Inductive result (A : Type) : Type :=
| Returned (a : A)
| Raised (e : exn).
Arguments Returned {A} a.
Arguments Raised {A} e.

(** The three locals that [process_func_args] returns. *)
Record Processed : Type := mkProcessed {
  args : list IR;
  kwargs : gmap string IR;
  arg_types : list Class
}.

(** The expression of an argument, and [aname]: the name of a named
    argument, the index [ai] of any other. *)
Definition arg_expr (a : CallArg) : Expr :=
  match a with
  | NamedArg _ arg => arg
  | Positional e => e
  end.

Definition aname (ai : Z) (a : CallArg) : string :=
  match a with
  | NamedArg name _ => name
  | Positional _ => pretty ai
  end.

Definition unresolved (funcname : string) (ai : Z) (a : CallArg) : exn :=
  EdgeQLError ("could not resolve the type of argument $" +:+ aname ai a
               +:+ " of function " +:+ funcname).

(** [kwargs[a.name] = arg], or [args.append(arg)]. *)
Definition store (a : CallArg) (arg : IR) (s : Processed) : Processed :=
  match a with
  | NamedArg name _ =>
      mkProcessed (args s) (<[name := arg]> (kwargs s)) (arg_types s)
  | Positional _ => mkProcessed (args s ++ [arg]) (kwargs s) (arg_types s)
  end.

(** The [for ai, a in enumerate(expr.args)] loop. *)
Fixpoint process_func_args_loop (funcname : string)
    (items : list (Z * CallArg)) (s : Processed) (ctx : Ctx)
  : result Processed * Ctx :=
  match items with
  | [] => (Returned s, ctx)
  | (ai, a) :: rest =>
      match compile_set (arg_expr a) ctx with
      | (inl e, ctx1) => (Raised (Propagated e), ctx1)
      | (inr arg, ctx1) =>
          let s1 := store a arg s in
          match infer_type arg ctx1 with
          | None => (Raised (unresolved funcname ai a), ctx1)
          | Some arg_type =>
              process_func_args_loop funcname rest
                (mkProcessed (args s1) (kwargs s1)
                   (arg_types s1 ++ [arg_type]))
                ctx1
          end
      end
  end.

Definition process_func_args (expr_args : list CallArg) (funcname : string)
    (ctx : Ctx) : result Processed * Ctx :=
  process_func_args_loop funcname (Func.enumerate 0 expr_args)
    (mkProcessed [] ∅ []) ctx.

(** *** Notions used in the statements *)

(** The keyword names of a call, and its other arguments, in call order. *)
Definition keyword_names (l : list CallArg) : list string :=
  omap (λ a, match a with NamedArg name _ => Some name | _ => None end) l.

Definition positional (l : list CallArg) : list Expr :=
  omap (λ a, match a with Positional e => Some e | _ => None end) l.

End Compiler.
Arguments NamedArg {Expr} name arg.
Arguments Positional {Expr} a.
Arguments EdgeQLError {Exn} msg.
Arguments Propagated {Exn} e.
Arguments Returned {Exn A} a.
Arguments Raised {Exn A} e.
Arguments mkProcessed {IR Class} _ _ _.
Arguments args {IR Class} _.
Arguments kwargs {IR Class} _.
Arguments arg_types {IR Class} _.
Arguments arg_expr {Expr} _.
Arguments aname {Expr} _ _.
Arguments unresolved {Expr Exn} _ _ _.
Arguments store {Expr IR Class} _ _ _.
Arguments process_func_args_loop {Expr IR Class Ctx Exn} _ _ _ _ _ _.
Arguments process_func_args {Expr IR Class Ctx Exn} _ _ _ _ _.
Arguments keyword_names {Expr} _.
Arguments positional {Expr} _.

(** *** A sample compiler

    Expressions compile to themselves; an integer literal has a type, a
    bare parameter has none. *)
Inductive sample_expr : Type := IntLit (n : Z) | Param (s : string).

Definition sample_compile_set (e : sample_expr) (ctx : nat)
  : (Empty_set + sample_expr) * nat :=
  (inr e, S ctx).

Definition sample_infer_type (ir : sample_expr) (ctx : nat)
  : option Func.sample_class :=
  match ir with
  | IntLit _ => Some Func.Int64
  | Param _ => None
  end.

(** *** Further sample overloads

    [h(int64 = 0, int64...)]; [g(str)]; and an overload whose [varparam]
    points past its single parameter. *)
Definition sample_h : Func.Function Func.sample_class :=
  Func.mkFunction [Func.Int64; Func.Int64] [Some "0"; None] (Some 2%Z)
    false None.

Definition sample_g1 : Func.Function Func.sample_class :=
  Func.mkFunction [Func.Str] [None] None false None.

Definition sample_stray_variadic : Func.Function Func.sample_class :=
  Func.mkFunction [Func.Int64] [None] (Some 5%Z) false None.

End FuncArgs.

(** ** [edgedb/lang/graphql/parser/grammar/document.py] *)

Module Document.

(** The AST nodes, with the attributes the reductions below read. *)
#[local] Unset Elimination Schemes.
Inductive Value : Type :=
| IntegerLiteral (value : Z)
| FloatLiteral (value : string)
| BooleanLiteral (value : bool)
| StringLiteral (value : string)
| EnumLiteral (value : string)
| ListLiteral (value : list Value)
| ObjectLiteral (value : list (string * Value))
| Variable_ (value : string).
#[local] Set Elimination Schemes.

Record Argument : Type := mkArgument {
  arg_name : string;
  arg_value : Value
}.

Record Directive : Type := mkDirective {
  dir_name : string;
  dir_arguments : list Argument
}.

Record VariableDefinition : Type := mkVariableDefinition {
  var_name : string;
  var_type : string;
  var_value : option Value
}.

Record OperationDefinition : Type := mkOperationDefinition {
  op_type : option string;
  op_name : option string;
  op_variables : option (list VariableDefinition);
  op_directives : list Directive
}.

Record FragmentDefinition : Type := mkFragmentDefinition {
  frag_name : string;
  frag_on : string;
  frag_directives : list Directive
}.

(** [Definition -> Query | Fragment] *)
Inductive Definition_ : Type :=
| Operation (defn : OperationDefinition)
| Fragment (defn : FragmentDefinition).

Record Document_ : Type := mkDocument {
  definitions : list Definition_
}.

Inductive exn : Type :=
| GraphQLUniquenessError (name : string) (entity : option string)
| GraphQLParserError (msg : string) (node : OperationDefinition).

Inductive result (A : Type) : Type :=
| Returned (a : A)
| Raised (e : exn).
Arguments Returned {A} a.
Arguments Raised {A} e.

Definition bind {A B} (r : result A) (k : A → result B) : result B :=
  match r with
  | Returned a => k a
  | Raised e => Raised e
  end.

(** Python truth value of a list that may be absent. *)
Definition truthy_list {A} (o : option (list A)) : bool :=
  match o with
  | Some (_ :: _) => true
  | _ => false
  end.

(** [x is None] *)
Definition absent {A} (o : option A) : bool :=
  match o with
  | None => true
  | Some _ => false
  end.

(** The locals of [Document.reduce_Definitions]. *)
Record Locals : Type := mkLocals {
  short : option OperationDefinition;
  fragnames : gset string;
  opnames : gset string
}.

(** One turn of the [for defn in kid.val] loop. *)
Definition reduce_Definitions_step (defn : Definition_) (s : Locals)
  : result Locals :=
  match defn with
  | Operation op =>
      match op_name op with
      | Some name =>
          if bool_decide (name ∉ opnames s)
          then Returned (mkLocals (short s) (fragnames s) ({[name]} ∪ opnames s))
          else Raised (GraphQLUniquenessError name (Some "operation"))
      | None =>
          if absent (short s)
             && absent (op_type op)
             && negb (truthy_list (op_variables op))
             && negb (truthy_list (Some (op_directives op)))
          then Returned (mkLocals (Some op) (fragnames s) (opnames s))
          else Returned s
      end
  | Fragment fr =>
      if bool_decide (frag_name fr ∉ fragnames s)
      then Returned (mkLocals (short s) ({[frag_name fr]} ∪ fragnames s) (opnames s))
      else Raised (GraphQLUniquenessError (frag_name fr) (Some "fragment"))
  end.

Fixpoint reduce_Definitions_loop (defs : list Definition_) (s : Locals)
  : result Locals :=
  match defs with
  | [] => Returned s
  | defn :: rest =>
      bind (reduce_Definitions_step defn s) (reduce_Definitions_loop rest)
  end.

Definition reduce_Definitions (kid : list Definition_) : result Document_ :=
  bind (reduce_Definitions_loop kid (mkLocals None ∅ ∅)) (λ s,
    match short s with
    | Some sh =>
        if (1 <? Z.of_nat (length kid) - Z.of_nat (size (fragnames s)))%Z
        then Raised (GraphQLParserError "short form is not allowed here" sh)
        else Returned (mkDocument kid)
    | None => Returned (mkDocument kid)
    end).

(** The name check shared by [Arguments.reduce_LPAREN_ArgumentList_RPAREN]
    and [Variables.reduce_LPAREN_VariableList_RPAREN]: the same loop over
    a fresh set, on the [name] attribute of the node. *)
Fixpoint unique_names_loop (names : list string) (seen : gset string)
  : result unit :=
  match names with
  | [] => Returned tt
  | name :: rest =>
      if bool_decide (name ∉ seen)
      then unique_names_loop rest ({[name]} ∪ seen)
      else Raised (GraphQLUniquenessError name None)
  end.

Definition reduce_LPAREN_ArgumentList_RPAREN (kids1 : list Argument)
  : result (list Argument) :=
  bind (unique_names_loop (map arg_name kids1) ∅) (λ _, Returned kids1).

Definition reduce_LPAREN_VariableList_RPAREN (kids1 : list VariableDefinition)
  : result (list VariableDefinition) :=
  bind (unique_names_loop (map var_name kids1) ∅) (λ _, Returned kids1).

(** *** Notions used in the statements *)

(** The operation definitions of a document, in order. *)
Fixpoint operations (defs : list Definition_) : list OperationDefinition :=
  match defs with
  | [] => []
  | Operation op :: rest => op :: operations rest
  | Fragment _ :: rest => operations rest
  end.

(** The names of the named operations, and of the fragments. *)
Definition operation_names (defs : list Definition_) : list string :=
  omap op_name (operations defs).

Fixpoint fragment_names (defs : list Definition_) : list string :=
  match defs with
  | [] => []
  | Operation _ :: rest => fragment_names rest
  | Fragment fr :: rest => frag_name fr :: fragment_names rest
  end.

(** The anonymous shorthand: no name, no operation type, no variables, no
    directives. *)
Definition short_form (op : OperationDefinition) : bool :=
  absent (op_name op) && absent (op_type op)
  && negb (truthy_list (op_variables op))
  && negb (truthy_list (Some (op_directives op))).

Definition find_short (defs : list Definition_) : option OperationDefinition :=
  head (filter (λ op, short_form op = true) (operations defs)).

(** What the loop of [reduce_Definitions] leaves in its locals. *)
Definition loop_result (defs : list Definition_) (s : Locals) : Locals :=
  mkLocals
    (match short s with
     | Some sh => Some sh
     | None => find_short defs
     end)
    (list_to_set (fragment_names defs) ∪ fragnames s)
    (list_to_set (operation_names defs) ∪ opnames s).

Definition names_fresh (defs : list Definition_) (s : Locals) : Prop :=
  NoDup (operation_names defs)
  ∧ (∀ n, n ∈ operation_names defs → n ∉ opnames s)
  ∧ NoDup (fragment_names defs)
  ∧ (∀ n, n ∈ fragment_names defs → n ∉ fragnames s).

(** *** Sample documents *)

(** [{ a }], [query Foo { a }] and [fragment F on T { a }]. *)
Definition sample_short : OperationDefinition :=
  mkOperationDefinition None None None [].

Definition sample_Foo : OperationDefinition :=
  mkOperationDefinition (Some "query") (Some "Foo") None [].

Definition sample_F : FragmentDefinition :=
  mkFragmentDefinition "F" "T" [].

End Document.

(** ** [edgedb/lang/graphql/parser/grammar/document.py]: constant values *)

Module DocumentValues.
Import Document.

(** [GraphQLParserError.from_parsed(msg, expr)], with the value node the
    error points at. *)
Inductive exn : Type :=
| GraphQLParserError (msg : string) (node : Value).

Inductive result (A : Type) : Type :=
| Returned (a : A)
| Raised (e : exn).
Arguments Returned {A} a.
Arguments Raised {A} e.

Definition bind {A B} (r : result A) (k : A → result B) : result B :=
  match r with
  | Returned a => k a
  | Raised e => Raised e
  end.

(** [check_const(expr)]: the two [for] loops are the inner fixpoints. *)
Fixpoint check_const (expr : Value) : result unit :=
  match expr with
  | Variable_ _ =>
      Raised (GraphQLParserError
                "unexpected variable, must be a constant value" expr)
  | ListLiteral value =>
      (fix loop (vals : list Value) : result unit :=
         match vals with
         | [] => Returned tt
         | val :: rest => bind (check_const val) (λ _, loop rest)
         end) value
  | ObjectLiteral value =>
      (fix loop (fields : list (string * Value)) : result unit :=
         match fields with
         | [] => Returned tt
         | field :: rest => bind (check_const field.2) (λ _, loop rest)
         end) value
  | _ => Returned tt
  end.

(** [DefaultValue.reduce_EQUAL_BaseValue] *)
Definition reduce_EQUAL_BaseValue (kids1 : Value) : result Value :=
  bind (check_const kids1) (λ _, Returned kids1).

(** *** Notions used in the statements *)

(** The variables that occur in a value, from left to right. *)
Fixpoint variables (v : Value) : list string :=
  match v with
  | Variable_ x => [x]
  | ListLiteral value =>
      (fix each (vals : list Value) : list string :=
         match vals with
         | [] => []
         | val :: rest => variables val ++ each rest
         end) value
  | ObjectLiteral value =>
      (fix each (fields : list (string * Value)) : list string :=
         match fields with
         | [] => []
         | field :: rest => variables field.2 ++ each rest
         end) value
  | _ => []
  end.

(** The outcome of [check_const] on a value with these variables. *)
Definition check_const_outcome (vars : list string) : result unit :=
  match vars with
  | [] => Returned tt
  | x :: _ =>
      Raised (GraphQLParserError
                "unexpected variable, must be a constant value" (Variable_ x))
  end.

(** [[1, {a: $x}, $y]] *)
Definition sample_value : Value :=
  ListLiteral [IntegerLiteral 1; ObjectLiteral [("a", Variable_ "x")];
               Variable_ "y"].

End DocumentValues.

(** ** [edb/server/backend/dbview.py]: several sessions *)

Module Sessions.
Import DbView.

(** The same database and clock seen through another session's view. *)
Definition switch_session (v : DatabaseConnectionView) (w : World) : World :=
  mkWorld (clock w) (ticks w) (db w) v.

(** The local cache is in use only inside a transaction with DDL. *)
Definition local_cache_scoped (v : DatabaseConnectionView) : Prop :=
  (_in_tx_with_ddl v = true → _in_tx v = true)
  ∧ (_in_tx_with_ddl v = false → LRU.items (_eql_to_compiled v) = []).

(** The config deltas of a run of units that [on_success] applies: the
    ones that are true as Python values. *)
Definition config_deltas (qus : list QueryUnit) : list Config :=
  omap (λ qu, if truthy_map (config qu) then config qu else None) qus.

Definition modaliases_deltas (qus : list QueryUnit) : list ModAliases :=
  omap (λ qu, if truthy_map (modaliases qu) then modaliases qu else None) qus.

(** *** class DatabaseIndex *)

(** The registry [self._dbs] and the clock that [Database.__init__]
    reads.  A [Database] object is never replaced once registered, so a
    view's [_db] reference is given by the name it was asked for. *)
Record DatabaseIndex : Type := mkIndex {
  index_clock : nat → Z;
  index_ticks : nat;
  _dbs : gmap string Database
}.

Definition DatabaseIndex__init__ (clk : nat → Z) (t : nat) : DatabaseIndex :=
  mkIndex clk t ∅.

Section Defines.
Variable _MAX_QUERIES_CACHE : nat.

(** The view that [db._new_view(user=user)] returns: the fields
    [DatabaseConnectionView.__init__] leaves. *)
Definition _new_view (user : string) : DatabaseConnectionView :=
  mkView user ∅ {[ None := "default" ]} (LRU.empty _MAX_QUERIES_CACHE)
    None false false false ∅ {[ None := "default" ]}.

(** [new_view(dbname, user=user)]: the index after the call, the database
    the view is bound to, and the view. *)
Definition new_view (dbname user : string) (ix : DatabaseIndex)
  : DatabaseIndex * Database * DatabaseConnectionView :=
  match _dbs ix !! dbname with
  | Some d => (ix, d, _new_view user)
  | None =>
      let d := mkDatabase dbname (index_clock ix (index_ticks ix))
                 (LRU.empty _MAX_QUERIES_CACHE) in
      (mkIndex (index_clock ix) (S (index_ticks ix)) (<[dbname := d]> (_dbs ix)),
       d, _new_view user)
  end.

End Defines.


(** A clock that reads 100, 101, ... *)
Definition sample_index : DatabaseIndex :=
  DatabaseIndex__init__ (λ i, 100 + Z.of_nat i)%Z 0.

End Sessions.

(** * Properties *)

(** ** The LRU mapping *)

Module LRUFacts.
Import LRU.
Section Lru.
Context {K V : Type} `{EqDecision K}.
Implicit Types (k : K) (v : V) (l : list (K * V)) (m : LRUMapping K V).








Lemma get_peek k m : (get k m).1 = peek k m.
Proof. unfold get, peek. by destruct (assoc k (items m)). Qed.


Lemma maxsize_set k v m : maxsize (set k v m) = maxsize m.
Proof. unfold set. by destruct (assoc k (items m)). Qed.

Lemma peek_clear k m : peek k (clear m) = None.
Proof. done. Qed.

Lemma peek_empty k n : peek k (empty (V:=V) n) = None.
Proof. done. Qed.




End Lru.
End LRUFacts.

(** ** Session state and the shared query cache *)

Module DbViewProps.
Import DbView.

Ltac fields :=
  cbn [view db clock ticks _user _config _modaliases _eql_to_compiled _txid
       _in_tx _in_tx_with_ddl _tx_error _config_before_tx
       _modaliases_before_tx _name _dbver _db_eql_to_compiled fst snd] in *.

Ltac open_world w :=
  let c := fresh "clk" in
  let t := fresh "t" in
  let d := fresh "d" in
  let v := fresh "v" in
  destruct w as [c t d v]; destruct v; fields; subst.

Ltac unfold_ops :=
  cbv [run_unit cache_compiled_query lookup_compiled_query on_success
       start on_error tx_error abort_tx rollback View__init__
       _cache_compiled_query _reset_tx_state _invalidate_local_cache
       _signal_ddl _invalidate_caches raise_in_tx_error update when assert
       self self_db put_view put_db monotonic_ns bind ret raise
       set_config set_modaliases set_eql_to_compiled set_txid set_in_tx
       set_in_tx_with_ddl set_tx_error set_config_before_tx
       set_modaliases_before_tx
       view db clock ticks _user _config _modaliases _eql_to_compiled _txid
       _in_tx _in_tx_with_ddl _tx_error _config_before_tx
       _modaliases_before_tx _name _dbver _db_eql_to_compiled
       fst snd negb andb orb] in *.

Ltac crunch :=
  repeat match goal with
    | |- context [if ?b then _ else _] => destruct b eqn:?; cbv beta iota in *
    | H : context [if ?b then _ else _] |- _ =>
        destruct b eqn:?; cbv beta iota in *
    end.


(** [C3]  Once [on_error] has been called inside a transaction, the session
    is poisoned: every lookup of a compiled query returns nothing, [start] of
    a unit that rolls nothing back raises [TransactionError] and leaves the
    session as it was (so this repeats for every later lookup and [start]),
    while [start] of a unit that rolls back the transaction or a savepoint
    clears the flag. *)
Theorem tx_error_gating (w : World) (failed : QueryUnit) :
  _in_tx (view w) = true →
  let w1 := (on_error failed w).2 in
  _tx_error (view w1) = true
  ∧ (∀ eql json_mode,
       lookup_compiled_query eql json_mode w1 = (Returned None, w1))
  ∧ (∀ qu, savepoint_rollbacks qu = false → rollbacks_tx qu = false →
       start qu w1
       = (Raised (TransactionError
            "current transaction is aborted, commands ignored until end of transaction block"),
          w1))
  ∧ (∀ qu, savepoint_rollbacks qu = true ∨ rollbacks_tx qu = true →
       _tx_error (view (start qu w1).2) = false).
Proof.
  intros Hin. open_world w. unfold_ops.
  repeat split.
  - intros qu -> ->. reflexivity.
  - intros qu Hrb.
    assert (savepoint_rollbacks qu = true ∨
            savepoint_rollbacks qu = false ∧ rollbacks_tx qu = true)
      as [-> | [-> ->]]
      by (destruct (savepoint_rollbacks qu); [by left | right; by destruct Hrb]).
    all: cbv beta iota; crunch; done.
Qed.

(** [C1]  Outside a DDL transaction and with no pending transaction error,
    [lookup_compiled_query] returns a unit exactly when the shared cache
    holds it under the key made of the query, the output mode and the
    session's current aliases and config, and its [dbver] stamp is the
    database's current one; an entry with another stamp is reported absent,
    and after a DDL unit succeeded outside a transaction every lookup is
    absent. *)
Theorem lookup_compiled_query_shared (w : World) (eql : string)
    (json_mode : bool) :
  _in_tx_with_ddl (view w) = false →
  _tx_error (view w) = false →
  let key := (eql, json_mode, _modaliases (view w), _config (view w)) in
  (∀ u, (lookup_compiled_query eql json_mode w).1 = Returned (Some u)
        ↔ LRU.peek key (_db_eql_to_compiled (db w)) = Some u
          ∧ dbver u = _dbver (db w))
  ∧ (∀ u, LRU.peek key (_db_eql_to_compiled (db w)) = Some u →
          dbver u ≠ _dbver (db w) →
          (lookup_compiled_query eql json_mode w).1 = Returned None)
  ∧ (∀ ddl, _in_tx (view w) = false → has_ddl ddl = true →
       ∀ eql' json_mode',
         (lookup_compiled_query eql' json_mode' (on_success ddl w).2).1
         = Returned None).
Proof.
  intros Hddl Herr key.
  assert (Hlook : (lookup_compiled_query eql json_mode w).1
    = Returned (match LRU.peek key (_db_eql_to_compiled (db w)) with
                | Some u => if bool_decide (dbver u ≠ _dbver (db w))
                            then None else Some u
                | None => None
                end)).
  { unfold lookup_compiled_query, bind, self, self_db, put_db, ret.
    rewrite Herr, Hddl. fold key.
    rewrite <- (LRUFacts.get_peek key).
    destruct (LRU.get key (_db_eql_to_compiled (db w))) as [[u|] c]; simpl;
      [|done]. by destruct (bool_decide _). }
  split; [|split].
  - intros u. rewrite Hlook.
    destruct (LRU.peek key _) as [u'|];
      [|split; [intros [=] | intros [[=] _]]].
    destruct (bool_decide_reflect (dbver u' ≠ _dbver (db w))) as [Hne|Heq].
    + split; [intros [=] | intros [[= ->] ?]; contradiction].
    + apply dec_stable in Heq.
      split; [intros [= ->]; by split | intros [[= ->] _]; done].
  - intros u Hu Hne. rewrite Hlook, Hu. by rewrite bool_decide_true.
  - intros ddl Hin Hhas eql' json_mode'. clear Hlook.
    open_world w. unfold_ops. rewrite Hhas. cbv beta iota.
    crunch; done.
Qed.

(** [start] never touches the database object. *)
Lemma start_keeps_db (qu : QueryUnit) (w : World) : db (start qu w).2 = db w.
Proof. open_world w. unfold_ops. crunch; done. Qed.

(** Inside a transaction only a committing unit reaches [_signal_ddl]. *)
Lemma on_success_in_tx_keeps_db (qu : QueryUnit) (w : World) :
  _in_tx (view w) = true → commits_tx qu = false →
  db (on_success qu w).2 = db w.
Proof.
  intros Hin Hc. open_world w. unfold_ops. rewrite Hc. cbv beta iota.
  crunch; done.
Qed.

(** A unit that leaves the transaction open keeps the session in it, with
    the snapshots taken before the transaction, whatever its outcome. *)
Lemma run_unit_in_tx (qu : QueryUnit) (w : World) :
  _in_tx (view w) = true → keeps_tx_open qu →
  let w' := (run_unit qu w).2 in
  db w' = db w ∧ _in_tx (view w') = true
  ∧ _config_before_tx (view w') = _config_before_tx (view w)
  ∧ _modaliases_before_tx (view w') = _modaliases_before_tx (view w).
Proof.
  intros Hin [Hc Hr]. open_world w. unfold_ops. rewrite Hc, Hr.
  cbv beta iota. crunch; repeat split; done.
Qed.

Lemma run_units_cons (qu : QueryUnit) (qus : list QueryUnit) (w : World) :
  run_units (qu :: qus) w
  = match run_unit qu w with
    | (Returned _, w') => run_units qus w'
    | (Raised e, w') => (Raised e, w')
    end.
Proof. reflexivity. Qed.

Lemma run_units_in_tx (qus : list QueryUnit) (w : World) :
  _in_tx (view w) = true → Forall keeps_tx_open qus →
  let w' := (run_units qus w).2 in
  db w' = db w ∧ _in_tx (view w') = true
  ∧ _config_before_tx (view w') = _config_before_tx (view w)
  ∧ _modaliases_before_tx (view w') = _modaliases_before_tx (view w).
Proof.
  intros Hin Hall. revert w Hin.
  induction Hall as [|qu qus Hqu _ IH]; intros w Hin; [done|].
  pose proof (run_unit_in_tx qu w Hin Hqu) as (Hdb & Hin' & Hcfg & Hmod).
  cbv zeta. rewrite run_units_cons.
  destruct (run_unit qu w) as [[[]|e] w1]; simpl in *;
    [|repeat split; assumption].
  specialize (IH w1 Hin'). simpl in IH.
  destruct IH as (-> & -> & -> & ->). repeat split; assumption.
Qed.

(** [C2]  Inside a transaction, [start] and the [on_success] of a unit that
    does not commit leave the database object (its [dbver] and its shared
    cache) untouched, and so does any run of units that leave the
    transaction open.  The [on_success] of a committing unit of a
    transaction with DDL returns, stamps the database with the next reading
    of the monotonic clock (a later stamp when the clock is strictly
    increasing and gave the previous stamp), empties the shared cache and
    puts the session back to its baseline. *)
Theorem ddl_signal_deferred_to_commit (w : World) (qu : QueryUnit) :
  _in_tx (view w) = true →
  db (start qu w).2 = db w
  ∧ (commits_tx qu = false → db (on_success qu w).2 = db w)
  ∧ (∀ qus, Forall keeps_tx_open qus → db (run_units qus w).2 = db w)
  ∧ (commits_tx qu = true → _in_tx_with_ddl (view w) = true →
       let w' := (on_success qu w).2 in
       (on_success qu w).1 = Returned tt
       ∧ _dbver (db w') = clock w (ticks w)
       ∧ LRU.items (_db_eql_to_compiled (db w')) = []
       ∧ tx_baseline (view w')
       ∧ (∀ i, (i < ticks w)%nat → _dbver (db w) = clock w i →
               (∀ a b, (a < b)%nat → (clock w a < clock w b)%Z) →
               (_dbver (db w) < _dbver (db w'))%Z)).
Proof.
  intros Hin. split; [apply start_keeps_db|].
  split; [by apply on_success_in_tx_keeps_db|].
  split; [intros qus Hall; by apply run_units_in_tx|].
  intros Hc Hddl. unfold tx_baseline. open_world w. unfold_ops.
  rewrite Hc. cbv beta iota.
  assert (∀ i, (i < t)%nat → _dbver d = clk i →
     (∀ a b, (a < b)%nat → (clk a < clk b)%Z) → (_dbver d < clk t)%Z) as Hadv.
  { intros i Hi -> Hmono. by apply Hmono. }
  crunch; done.
Qed.





(** What [_cache_compiled_query] leaves in the database object. *)
Lemma cache_compiled_query_db (key : Key) (compiled : QueryUnit) (w : World) :
  let d := db w in
  let c := (LRU.get key (_db_eql_to_compiled d)).2 in
  let stored := mkDatabase (_name d) (_dbver d) (LRU.set key compiled c) in
  _cache_compiled_query key compiled w
  = if is_preparable compiled then
      match cached key w with
      | Some e =>
          if (dbver compiled <? dbver e)%Z
          then (Returned tt,
                mkWorld (clock w) (ticks w) (mkDatabase (_name d) (_dbver d) c)
                  (view w))
          else (Returned tt, mkWorld (clock w) (ticks w) stored (view w))
      | None => (Returned tt, mkWorld (clock w) (ticks w) stored (view w))
      end
    else (Raised AssertionError, w).
Proof.
  cbv zeta. unfold cached. rewrite <- (LRUFacts.get_peek key).
  unfold _cache_compiled_query, assert, bind, ret, raise, self_db, put_db.
  destruct (is_preparable compiled); [|done].
  destruct w as [clk t d v]. cbn [db view clock ticks].
  destruct (LRU.get key (_db_eql_to_compiled d)) as [[e|] c]; cbn [fst snd];
    [|done].
  by destruct (dbver compiled <? dbver e)%Z.
Qed.





(** Where [on_success] stops on its assertion (a commit outside a
    transaction), the config delta is applied already and the snapshot is
    not taken again. *)
Lemma on_success_failed_assert :
  let qu := mkQueryUnit false false true false false false
              (Some {[ "format" := "json" ]}) None 5 None in
  let r := on_success qu (sample_world 8) in
  r.1 = Raised AssertionError
  ∧ _in_tx (view r.2) = false
  ∧ _config (view r.2) = {[ "format" := "json" ]}
  ∧ _config_before_tx (view r.2) = ∅.
Proof. vm_compute. done. Qed.

(** *** The statements at sample sessions *)

(** A unit cached at the database's current stamp is found again. *)
Lemma lookup_compiled_query_shared_witness :
  let w := (cache_compiled_query "select 1" false (sample_unit 5)
              (sample_world 8)).2 in
  (lookup_compiled_query "select 1" false w).1
  = Returned (Some (sample_unit 5)).
Proof.
  intros w.
  apply (proj1 (lookup_compiled_query_shared w "select 1" false
                  eq_refl eq_refl)).
  split; vm_compute; reflexivity.
Defined.

(** The commit of a transaction with DDL stamps the database with the
    clock's reading, 6. *)
Lemma ddl_signal_deferred_to_commit_witness :
  _dbver (db (on_success sample_commit (sample_world_in_tx true)).2) = 6%Z.
Proof.
  destruct (ddl_signal_deferred_to_commit (sample_world_in_tx true)
              sample_commit eq_refl) as (_ & _ & _ & Hcommit).
  destruct (Hcommit eq_refl eq_refl) as (_ & Hver & _).
  exact Hver.
Defined.

Lemma tx_error_gating_witness :
  _tx_error (view (on_error (sample_unit 5) (sample_world_in_tx false)).2)
  = true.
Proof.
  exact (proj1 (tx_error_gating (sample_world_in_tx false) (sample_unit 5)
                  eq_refl)).
Defined.




End DbViewProps.

(** ** Overload matching *)

Module FuncProps.
Import Func.

Section Schema.
Context {Class : Type} (issubclass : Class → Class → bool).
Implicit Types (func : Function Class) (pts args : list Class).

Local Abbreviation matches a p := (issubclass a p = true).


Lemma check_pairs_cons_cons func p pts a args :
  check_pairs issubclass func (zip_longest (p :: pts) (a :: args))
  = if issubclass a p
    then check_pairs issubclass func (zip_longest pts args)
    else Returned false.
Proof. reflexivity. Qed.

Lemma check_pairs_cons_nil func p pts :
  check_pairs issubclass func (zip_longest (p :: pts) (@nil Class))
  = Raised AttributeError.
Proof. reflexivity. Qed.

(** Past the declared parameters every argument is tested against the
    type found at [varparam - 1]. *)
Lemma check_pairs_surplus func args :
  args ≠ [] →
  check_pairs issubclass func (zip_longest (@nil Class) args)
  = match varparam func with
    | None => Returned false
    | Some vp =>
        bind (py_index (paramtypes func) (vp - 1)) (λ pt,
          Returned (forallb (λ a, issubclass a pt) args))
    end.
Proof.
  intros Hne. destruct (varparam func) as [vp|] eqn:Hvp.
  - destruct (py_index (paramtypes func) (vp - 1)) as [pt|e] eqn:Hpt.
    + simpl. clear Hne. induction args as [|a args IH]; [done|].
      simpl. rewrite Hvp, Hpt. simpl.
      destruct (issubclass a pt); [exact IH | done].
    + destruct args as [|a args]; [done|]. simpl. by rewrite Hvp, Hpt.
  - destruct args as [|a args]; [done|]. simpl. by rewrite Hvp.
Qed.


(** Fewer arguments than parameters: the padded pair is reached when the
    arguments given all match, and the subtype test is then applied to the
    padding. *)
Lemma check_pairs_short func pts args :
  length args < length pts →
  (Forall2 (λ a p, matches a p) args (take (length args) pts) →
   check_pairs issubclass func (zip_longest pts args) = Raised AttributeError)
  ∧ (¬ Forall2 (λ a p, matches a p) args (take (length args) pts) →
     check_pairs issubclass func (zip_longest pts args) = Returned false).
Proof.
  revert args. induction pts as [|p pts IH]; intros args Hlen;
    [simpl in Hlen; lia|].
  destruct args as [|a args].
  - split; [done|]. intros Hno. exfalso. apply Hno. constructor.
  - rewrite check_pairs_cons_cons. simpl in Hlen.
    destruct (IH args ltac:(lia)) as [IHy IHn].
    change (take (length (a :: args)) (p :: pts))
      with (p :: take (length args) pts).
    destruct (issubclass a p) eqn:Hap.
    + split.
      * intros H. apply IHy. by inversion H.
      * intros H. apply IHn. intros H'. apply H. by constructor.
    + split; [|done]. intros H. inversion H; congruence.
Qed.


(** The second loop reads the parameter types and the variadic position
    of the overload only. *)
Lemma check_pairs_ext func func' pairs :
  paramtypes func' = paramtypes func → varparam func' = varparam func →
  check_pairs issubclass func' pairs = check_pairs issubclass func pairs.
Proof.
  intros Hpt Hvp. induction pairs as [|[pt at_] pairs IH]; [done|].
  simpl. rewrite Hpt, Hvp, IH. reflexivity.
Qed.

Lemma py_index_raises {A} (l : list A) (i : Z) (e : exn) :
  py_index l i = Raised e → e = IndexError.
Proof.
  unfold py_index.
  destruct (_ && _); [|by intros [= <-]].
  destruct (l !! _); [done | by intros [= <-]].
Qed.

Lemma check_pairs_raises func pairs (e : exn) :
  check_pairs issubclass func pairs = Raised e →
  e = AttributeError ∨ e = IndexError.
Proof.
  induction pairs as [|[pt at_] pairs IH]; [done|]. simpl.
  assert (Hcont : ∀ p,
    match at_ with
    | Some a => if issubclass a p then check_pairs issubclass func pairs
                else Returned false
    | None => Raised AttributeError
    end = Raised e → e = AttributeError ∨ e = IndexError).
  { intros p. destruct at_ as [a|]; [|intros [= <-]; by left].
    destruct (issubclass a p); [exact IH | done]. }
  destruct pt as [p|]; [apply Hcont|].
  destruct (varparam func) as [vp|]; [|done].
  destruct (py_index (paramtypes func) (vp - 1)) as [p|e'] eqn:Hpy; simpl.
  - apply Hcont.
  - intros [= <-]. right. by eapply py_index_raises.
Qed.

Lemma check_function_raises func args (e : exn) :
  check_function issubclass func args = Raised e →
  e = AttributeError ∨ e = IndexError.
Proof.
  unfold check_function.
  destruct (paramtypes func), args; try done. apply check_pairs_raises.
Qed.

Lemma check_function_nonempty func args :
  paramtypes func ≠ [] → args ≠ [] →
  check_function issubclass func args
  = check_pairs issubclass func (zip_longest (paramtypes func) args).
Proof.
  unfold check_function. by destruct (paramtypes func), args.
Qed.


Lemma select_none funcname (funcs : list (Function Class)) args :
  compile_FunctionCall_select issubclass funcname funcs args
  = Raised (EdgeQLError ("could not find a function variant " +:+ funcname))
  ↔ Forall (λ g, check_function issubclass g args = Returned false) funcs.
Proof.
  split.
  - induction funcs as [|g funcs IH]; [by constructor|]. simpl.
    destruct (check_function issubclass g args) as [[]|e] eqn:Hg; simpl;
      [done| |].
    + intros Hsel. constructor; [done | by apply IH].
    + intros [= ->]. by destruct (check_function_raises _ _ _ Hg).
  - induction 1 as [|g funcs Hg _ IH]; simpl; [done|]. by rewrite Hg.
Qed.


(** [C9], as the code has it.  When an overload with parameters is called
    with at least one argument but fewer than it has parameters,
    [check_function] raises [AttributeError] if every argument given is a
    subtype of its parameter (the padding of [zip_longest] is then reached),
    and answers no match otherwise; and with at least one argument the
    parameter defaults play no part in the outcome. *)
Theorem check_function_short_call func args :
  paramtypes func ≠ [] →
  args ≠ [] →
  length args < length (paramtypes func) →
  (Forall2 (λ a p, matches a p) args (take (length args) (paramtypes func)) →
   check_function issubclass func args = Raised AttributeError)
  ∧ (¬ Forall2 (λ a p, matches a p) args
         (take (length args) (paramtypes func)) →
     check_function issubclass func args = Returned false)
  ∧ (∀ defaults,
       check_function issubclass
         (mkFunction (paramtypes func) defaults (varparam func)
            (aggregate func) (initial_value func)) args
       = check_function issubclass func args).
Proof.
  intros Hpts Hargs Hlen.
  rewrite (check_function_nonempty func) by done.
  destruct (check_pairs_short func (paramtypes func) args Hlen) as [Hy Hn].
  split; [done|]. split; [done|].
  intros defaults. rewrite check_function_nonempty by done.
  by apply check_pairs_ext.
Qed.

End Schema.

(** *** The statements on the sample schema *)


(** [g("a")] for [g(str, int64)]: the argument given matches. *)
Lemma check_function_short_call_witness :
  check_function sample_issubclass sample_g [Str] = Raised AttributeError.
Proof.
  assert (Hne : paramtypes sample_g ≠ []) by done.
  assert (Hargs : [Str] ≠ []) by done.
  assert (Hlen : length [Str] < length (paramtypes sample_g))
    by (simpl; lia).
  apply (proj1 (check_function_short_call sample_issubclass sample_g [Str]
                  Hne Hargs Hlen)).
  repeat constructor.
Defined.

(** [g(1)] for [g(str, int64)]: one argument for two parameters, and the
    verdict is no match, not an attribute error. *)
Lemma check_function_short_call_mismatch :
  check_function sample_issubclass sample_g [Int64] = Returned false.
Proof. reflexivity. Qed.

End FuncProps.

(** ** Document reduction *)

Module DocumentProps.
Import Document.
#[local] Set Warnings "-clear-no-such-hyp".

Lemma operations_length (defs : list Definition_) :
  length defs = length (operations defs) + length (fragment_names defs).
Proof.
  induction defs as [|[op|fr] defs IH]; simpl; lia.
Qed.

Lemma operations_elem (defs : list Definition_) (op : OperationDefinition) :
  Operation op ∈ defs ↔ op ∈ operations defs.
Proof.
  induction defs as [|[op'|fr] defs IH]; simpl.
  - split; intros H; inversion H.
  - rewrite !elem_of_cons, IH. split; intros [H|H]; auto.
    + injection H as ->. by left.
    + left. by f_equal.
  - rewrite elem_of_cons, IH. split; [intros [H|H]; [done|done] | auto].
Qed.

Lemma find_short_spec (defs : list Definition_) :
  match find_short defs with
  | Some sh => sh ∈ operations defs ∧ short_form sh = true
  | None => ∀ op, op ∈ operations defs → short_form op = false
  end.
Proof.
  unfold find_short. induction (operations defs) as [|op ops IH]; simpl.
  - intros op H. inversion H.
  - rewrite filter_cons. destruct (decide (short_form op = true)) as [Hs|Hs].
    + simpl. split; [by left | done].
    + destruct (head _) as [sh|].
      * destruct IH as [Hin Hsh]. split; [by right | done].
      * intros op' [->|Hin]%elem_of_cons; [|by apply IH].
        by destruct (short_form op).
Qed.


Lemma operation_names_named op rest n :
  op_name op = Some n →
  operation_names (Operation op :: rest) = n :: operation_names rest.
Proof. intros H. unfold operation_names. simpl. by rewrite H. Qed.

Lemma operation_names_anonymous op rest :
  op_name op = None →
  operation_names (Operation op :: rest) = operation_names rest.
Proof. intros H. unfold operation_names. simpl. by rewrite H. Qed.

Lemma find_short_cons op rest :
  find_short (Operation op :: rest)
  = if short_form op then Some op else find_short rest.
Proof.
  unfold find_short. simpl. rewrite filter_cons.
  destruct (short_form op); destruct (decide _); simpl; congruence.
Qed.

(** One turn of the loop, on locals that a prefix of the document left. *)
Lemma step_fresh (defn : Definition_) (rest : list Definition_) (s : Locals) :
  names_fresh (defn :: rest) s →
  ∃ s1, reduce_Definitions_step defn s = Returned s1
        ∧ names_fresh rest s1
        ∧ loop_result rest s1 = loop_result (defn :: rest) s.
Proof.
  intros (Hon & Hos & Hfn & Hfs). destruct defn as [op|fr]; simpl.
  - destruct (op_name op) as [n|] eqn:Hn.
    + rewrite (operation_names_named _ _ _ Hn) in Hon, Hos.
      apply NoDup_cons in Hon as [Hnin Hon].
      rewrite bool_decide_true by (apply Hos; by left).
      eexists. split; [done|]. split.
      * repeat split; simpl; try done.
        intros m Hm. assert (Hm' : m ∈ n :: operation_names rest)
          by (by right).
        specialize (Hos m Hm'). set_solver.
      * unfold loop_result. simpl.
        rewrite (operation_names_named _ _ _ Hn), find_short_cons.
        unfold short_form. rewrite Hn. simpl.
        f_equal. set_solver.
    + rewrite (operation_names_anonymous _ _ Hn) in Hon, Hos.
      assert (Hsf : short_form op
                = absent (op_type op) && negb (truthy_list (op_variables op))
                  && negb (truthy_list (Some (op_directives op))))
        by (unfold short_form; by rewrite Hn).
      destruct (short s) as [sh|] eqn:Hsh; simpl.
      * exists s. split; [done|]. split; [done|].
        unfold loop_result. rewrite Hsh.
        by rewrite (operation_names_anonymous _ _ Hn).
      * simpl in Hsf. rewrite <- Hsf. destruct (short_form op) eqn:Hop.
        -- eexists. split; [done|]. split; [done|].
           unfold loop_result. simpl. rewrite Hsh, find_short_cons, Hop.
           by rewrite (operation_names_anonymous _ _ Hn).
        -- exists s. split; [done|]. split; [done|].
           unfold loop_result. rewrite Hsh, find_short_cons, Hop.
           by rewrite (operation_names_anonymous _ _ Hn).
  - simpl in Hfn, Hfs. apply NoDup_cons in Hfn as [Hnin Hfn].
    rewrite bool_decide_true by (apply Hfs; by left).
    eexists. split; [done|]. split.
    + repeat split; simpl; try done.
      intros m Hm. assert (Hm' : m ∈ frag_name fr :: fragment_names rest)
        by (by right).
      specialize (Hfs m Hm'). set_solver.
    + unfold loop_result. simpl. f_equal. set_solver.
Qed.

Lemma loop_fresh (defs : list Definition_) (s : Locals) :
  names_fresh defs s →
  reduce_Definitions_loop defs s = Returned (loop_result defs s).
Proof.
  revert s. induction defs as [|defn rest IH]; intros s Hfresh.
  - simpl. f_equal. destruct s as [sh fn on]. unfold loop_result. simpl.
    f_equal; [by destruct sh | set_solver | set_solver].
  - destruct (step_fresh defn rest s Hfresh) as (s1 & Hstep & Hfresh1 & Hres).
    simpl. rewrite Hstep. simpl. rewrite IH by done. by rewrite Hres.
Qed.


(** One turn of the loop either meets a name already seen and raises, or
    hands on locals from which freshness can be traced back. *)
Lemma step_outcome (defn : Definition_) (s : Locals) :
  (∃ name entity,
     reduce_Definitions_step defn s
     = Raised (GraphQLUniquenessError name entity)
     ∧ ∀ rest, ¬ names_fresh (defn :: rest) s)
  ∨ (∃ s1,
       reduce_Definitions_step defn s = Returned s1
       ∧ ∀ rest, names_fresh rest s1 → names_fresh (defn :: rest) s).
Proof.
  destruct defn as [op|fr]; simpl.
  - destruct (op_name op) as [n|] eqn:Hn.
    + case_bool_decide as Hin.
      * right. eexists. split; [done|].
        intros rest (Hon & Hos & Hfn & Hfs). unfold names_fresh.
        rewrite (operation_names_named _ _ _ Hn). simpl in *.
        repeat split; try done.
        -- apply NoDup_cons. split; [|done].
           intros Hmem. specialize (Hos n Hmem). set_solver.
        -- intros m [->|Hm]%elem_of_cons; [done|].
           specialize (Hos m Hm). set_solver.
      * left. exists n, (Some "operation"). split; [done|].
        intros rest (_ & Hos & _). apply (Hos n); [|exact Hin].
        rewrite (operation_names_named _ _ _ Hn). by left.
    + right.
      assert (Hkeep : ∀ s1 : Locals,
                fragnames s1 = fragnames s → opnames s1 = opnames s →
                ∀ rest, names_fresh rest s1 →
                        names_fresh (Operation op :: rest) s).
      { intros s1 Hf Ho rest (Hon & Hos & Hfn & Hfs).
        rewrite Hf in Hfs. rewrite Ho in Hos.
        unfold names_fresh. by rewrite (operation_names_anonymous _ _ Hn). }
      destruct (_ && _); eexists; (split; [done|]); by apply Hkeep.
  - case_bool_decide as Hin.
    + right. eexists. split; [done|].
      intros rest (Hon & Hos & Hfn & Hfs). simpl in *.
      repeat split; try done.
      * apply NoDup_cons. split; [|done].
        intros Hmem. specialize (Hfs _ Hmem). set_solver.
      * intros m [->|Hm]%elem_of_cons; [done|].
        specialize (Hfs m Hm). set_solver.
    + left. exists (frag_name fr), (Some "fragment"). split; [done|].
      intros rest (_ & _ & _ & Hfs).
      apply (Hfs (frag_name fr)); [simpl; by left | exact Hin].
Qed.

(** The loop returns exactly on documents whose operation names and
    fragment names are not repeated, and otherwise raises a uniqueness
    error. *)
Lemma loop_outcome (defs : list Definition_) (s : Locals) :
  (names_fresh defs s
   ∧ reduce_Definitions_loop defs s = Returned (loop_result defs s))
  ∨ (¬ names_fresh defs s
     ∧ ∃ name entity,
         reduce_Definitions_loop defs s
         = Raised (GraphQLUniquenessError name entity)).
Proof.
  revert s. induction defs as [|defn rest IH]; intros s.
  - left. assert (names_fresh [] s) as Hfresh.
    { repeat split; try constructor; intros n Hn; inversion Hn. }
    split; [done | by apply loop_fresh].
  - destruct (step_outcome defn s)
      as [(name & entity & Hstep & Hbad) | (s1 & Hstep & Hback)].
    + right. split; [apply Hbad|]. exists name, entity. simpl.
      by rewrite Hstep.
    + destruct (IH s1) as [[Hfresh _] | [Hbad (name & entity & Hloop)]].
      * left. split; [by apply Hback | apply loop_fresh; by apply Hback].
      * right. split.
        -- intros Hfresh.
           destruct (step_fresh defn rest s Hfresh) as (s1' & Hstep' & H1 & _).
           rewrite Hstep in Hstep'. injection Hstep' as <-. done.
        -- exists name, entity. simpl. rewrite Hstep. exact Hloop.
Qed.

Lemma names_fresh_init (defs : list Definition_) :
  names_fresh defs (mkLocals None ∅ ∅)
  ↔ NoDup (operation_names defs) ∧ NoDup (fragment_names defs).
Proof.
  unfold names_fresh. simpl. split.
  - intros (? & _ & ? & _). done.
  - intros [? ?]. repeat split; try done; intros n _; set_solver.
Qed.

(** The outcome of [reduce_Definitions] on a document without repeated
    names: the shorthand rule decides. *)
Lemma reduce_Definitions_unique (kid : list Definition_) :
  NoDup (operation_names kid) → NoDup (fragment_names kid) →
  reduce_Definitions kid
  = match find_short kid with
    | Some sh =>
        if (1 <? length (operations kid))%nat
        then Raised (GraphQLParserError "short form is not allowed here" sh)
        else Returned (mkDocument kid)
    | None => Returned (mkDocument kid)
    end.
Proof.
  intros Hon Hfn. unfold reduce_Definitions.
  rewrite loop_fresh by (by apply names_fresh_init). simpl.
  destruct (find_short kid) as [sh|]; [|done].
  rewrite union_empty_r_L, size_list_to_set by done.
  rewrite (operations_length kid).
  replace (Z.of_nat (length (operations kid) + length (fragment_names kid))
           - Z.of_nat (length (fragment_names kid)))%Z
    with (Z.of_nat (length (operations kid))) by lia.
  destruct (Nat.ltb_spec 1 (length (operations kid))) as [Hlt|Hge].
  - by rewrite (proj2 (Z.ltb_lt _ _)) by lia.
  - by rewrite (proj2 (Z.ltb_ge _ _)) by lia.
Qed.

Lemma reduce_Definitions_repeated (kid : list Definition_) :
  ¬ (NoDup (operation_names kid) ∧ NoDup (fragment_names kid)) →
  ∃ name entity,
    reduce_Definitions kid = Raised (GraphQLUniquenessError name entity).
Proof.
  intros Hbad. unfold reduce_Definitions.
  destruct (loop_outcome kid (mkLocals None ∅ ∅))
    as [[Hfresh _] | [_ (name & entity & ->)]].
  - by apply names_fresh_init in Hfresh.
  - by exists name, entity.
Qed.


(** The name check of argument and variable lists. *)
Lemma unique_names_outcome (names : list string) (seen : gset string) :
  (NoDup names ∧ (∀ n, n ∈ names → n ∉ seen)
   ∧ unique_names_loop names seen = Returned tt)
  ∨ (¬ (NoDup names ∧ ∀ n, n ∈ names → n ∉ seen)
     ∧ ∃ name, unique_names_loop names seen
               = Raised (GraphQLUniquenessError name None)).
Proof.
  revert seen. induction names as [|n names IH]; intros seen; simpl.
  - left. repeat split; [constructor | intros n Hn; inversion Hn].
  - case_bool_decide as Hin.
    + destruct (IH ({[n]} ∪ seen)) as [(Hnd & Hseen & ->) | [Hbad Hraise]].
      * left. repeat split.
        -- apply NoDup_cons. split; [|done].
           intros Hmem. specialize (Hseen n Hmem). set_solver.
        -- intros m [->|Hm]%elem_of_cons; [done|].
           specialize (Hseen m Hm). set_solver.
      * right. split; [|done]. intros [Hnd Hseen]. apply Hbad.
        apply NoDup_cons in Hnd as [Hnin Hnd]. split; [done|].
        intros m Hm. assert (Hm' : m ∈ n :: names) by (by right).
        specialize (Hseen m Hm').
        assert (m ≠ n) by (intros ->; done). set_solver.
    + right. split; [|by exists n].
      intros [_ Hseen]. apply (Hseen n); [by left | exact Hin].
Qed.

Lemma unique_names_returns (names : list string) :
  unique_names_loop names ∅ = Returned tt ↔ NoDup names.
Proof.
  destruct (unique_names_outcome names ∅)
    as [(Hnd & _ & ->) | [Hbad (name & ->)]]; [done|].
  split; [done|]. intros Hnd. exfalso. apply Hbad. split; [done|].
  intros n _. set_solver.
Qed.

Lemma unique_names_raises (names : list string) :
  (∃ name, unique_names_loop names ∅
           = Raised (GraphQLUniquenessError name None))
  ↔ ¬ NoDup names.
Proof.
  rewrite <- unique_names_returns.
  destruct (unique_names_outcome names ∅)
    as [(_ & _ & ->) | [_ (name & ->)]].
  - split; [by intros [? ?] | by intros H].
  - split; [done | intros _; by exists name].
Qed.

(** [C8]  [reduce_Definitions] raises a uniqueness error exactly when the
    name of a named operation or the name of a fragment is repeated in the
    document; the reductions of an argument list and of a variable list
    raise one exactly when a name is repeated in the list, and return the
    list exactly when its names are pairwise distinct. *)
Theorem uniqueness_errors :
  (∀ kid : list Definition_,
     (∃ name entity,
        reduce_Definitions kid = Raised (GraphQLUniquenessError name entity))
     ↔ ¬ (NoDup (operation_names kid) ∧ NoDup (fragment_names kid)))
  ∧ (∀ args : list Argument,
       ((∃ name, reduce_LPAREN_ArgumentList_RPAREN args
                 = Raised (GraphQLUniquenessError name None))
        ↔ ¬ NoDup (map arg_name args))
       ∧ (reduce_LPAREN_ArgumentList_RPAREN args = Returned args
          ↔ NoDup (map arg_name args)))
  ∧ (∀ vars : list VariableDefinition,
       ((∃ name, reduce_LPAREN_VariableList_RPAREN vars
                 = Raised (GraphQLUniquenessError name None))
        ↔ ¬ NoDup (map var_name vars))
       ∧ (reduce_LPAREN_VariableList_RPAREN vars = Returned vars
          ↔ NoDup (map var_name vars))).
Proof.
  split; [|split].
  - intros kid. split; [|apply reduce_Definitions_repeated].
    intros (name & entity & Hraise) [Hon Hfn].
    rewrite reduce_Definitions_unique in Hraise by done.
    destruct (find_short kid); [|done].
    by destruct (_ <? _)%nat.
  - intros args. unfold reduce_LPAREN_ArgumentList_RPAREN.
    rewrite <- unique_names_raises, <- unique_names_returns.
    destruct (unique_names_loop (map arg_name args) ∅) as [[]|e]; simpl.
    + split; [split; intros [? [=]] | done].
    + split; [split; intros [name [= ->]]; by exists name |].
      split; intros [=].
  - intros vars. unfold reduce_LPAREN_VariableList_RPAREN.
    rewrite <- unique_names_raises, <- unique_names_returns.
    destruct (unique_names_loop (map var_name vars) ∅) as [[]|e]; simpl.
    + split; [split; intros [? [=]] | done].
    + split; [split; intros [name [= ->]]; by exists name |].
      split; intros [=].
Qed.

(** [C7], as the code has it.  A document that is accepted and holds an
    operation in the anonymous shorthand form has that operation as its only
    operation, whatever the number of fragments.  When no operation name and
    no fragment name is repeated, a document with a shorthand operation
    among several operations fails with 'short form is not allowed here',
    and a document without one, or with a single operation, is accepted. *)
Theorem short_form_sole_operation (kid : list Definition_) :
  (∀ doc op,
     reduce_Definitions kid = Returned doc →
     Operation op ∈ kid → short_form op = true →
     length (operations kid) = 1)
  ∧ (NoDup (operation_names kid) → NoDup (fragment_names kid) →
     ∀ op, Operation op ∈ kid → short_form op = true →
     1 < length (operations kid) →
     ∃ sh, short_form sh = true ∧ Operation sh ∈ kid
           ∧ reduce_Definitions kid
             = Raised (GraphQLParserError "short form is not allowed here" sh))
  ∧ (NoDup (operation_names kid) → NoDup (fragment_names kid) →
     (∀ op, Operation op ∈ kid → short_form op = false)
     ∨ length (operations kid) ≤ 1 →
     reduce_Definitions kid = Returned (mkDocument kid)).
Proof.
  pose proof (find_short_spec kid) as Hshort.
  split; [|split].
  - intros doc op Hret Hin Hop.
    assert (Hnames : NoDup (operation_names kid) ∧ NoDup (fragment_names kid)).
    { destruct (loop_outcome kid (mkLocals None ∅ ∅))
        as [[Hfresh _] | [_ (name & entity & Hraise)]].
      - by apply names_fresh_init.
      - unfold reduce_Definitions in Hret. by rewrite Hraise in Hret. }
    destruct Hnames as [Hon Hfn].
    rewrite reduce_Definitions_unique in Hret by done.
    apply operations_elem in Hin.
    assert (0 < length (operations kid))
      by (destruct (operations kid); [inversion Hin | simpl; lia]).
    destruct (find_short kid) as [sh|].
    + destruct (Nat.ltb_spec 1 (length (operations kid))); [done | lia].
    + rewrite (Hshort op Hin) in Hop. discriminate.
  - intros Hon Hfn op Hin Hop Hmany.
    rewrite reduce_Definitions_unique by done.
    apply operations_elem in Hin.
    destruct (find_short kid) as [sh|].
    + destruct Hshort as [Hsh Hform]. exists sh.
      split; [done|]. split; [by apply operations_elem|].
      by rewrite (proj2 (Nat.ltb_lt _ _)) by done.
    + rewrite (Hshort op Hin) in Hop. discriminate.
  - intros Hon Hfn Hcase. rewrite reduce_Definitions_unique by done.
    destruct (find_short kid) as [sh|]; [|done].
    destruct Hshort as [Hsh Hform].
    destruct Hcase as [Hnone | Hone].
    + rewrite (Hnone sh) in Hform by (by apply operations_elem).
      discriminate.
    + by rewrite (proj2 (Nat.ltb_ge _ _)) by done.
Qed.

(** *** The statements on sample documents *)

(** [{ a }  fragment F on T { a }] is accepted. *)
Lemma short_form_sole_operation_witness :
  reduce_Definitions [Operation sample_short; Fragment sample_F]
  = Returned (mkDocument [Operation sample_short; Fragment sample_F]).
Proof.
  apply (proj2 (proj2 (short_form_sole_operation
                         [Operation sample_short; Fragment sample_F]))).
  - vm_compute. constructor.
  - vm_compute. repeat constructor. intros H. inversion H.
  - right. simpl. lia.
Defined.

(** [{ a }  query Foo { a }  query Foo { a }]: the shorthand is not the only
    operation, and the reduction fails on the repeated name, not with 'short
    form is not allowed here'. *)
Lemma short_form_with_repeated_name :
  reduce_Definitions
    [Operation sample_short; Operation sample_Foo; Operation sample_Foo]
  = Raised (GraphQLUniquenessError "Foo" (Some "operation")).
Proof. vm_compute. reflexivity. Qed.

(** Two arguments called [id] in one list. *)
Lemma uniqueness_errors_witness :
  ∃ name,
    reduce_LPAREN_ArgumentList_RPAREN
      [mkArgument "id" (IntegerLiteral 1); mkArgument "id" (IntegerLiteral 2)]
    = Raised (GraphQLUniquenessError name None).
Proof.
  apply (proj1 (proj1 (proj2 uniqueness_errors)
           [mkArgument "id" (IntegerLiteral 1);
            mkArgument "id" (IntegerLiteral 2)])).
  simpl. intros Hnd. apply NoDup_cons in Hnd as [Hnin _].
  apply Hnin. by left.
Defined.

End DocumentProps.

(** ** Sessions: further properties *)

Module SessionsProps.
Import DbView Sessions DbViewProps.

(** The constructors written out in [new_view] are the ones of the
    classes. *)
Lemma new_view_constructors (n : nat) (name user : string) (w : World) :
  Database__init__ n name w
  = (Returned (mkDatabase name (clock w (ticks w)) (LRU.empty n)),
     mkWorld (clock w) (S (ticks w)) (db w) (view w))
  ∧ View__init__ n user w = (Returned tt, switch_session (_new_view n user) w).
Proof. split; reflexivity. Qed.


(** The two cache operations of a view, by cases on its flags. *)
Lemma cache_compiled_query_eq (eql : string) (json_mode : bool)
    (compiled : QueryUnit) (w : World) :
  let v := view w in
  let key := (eql, json_mode, _modaliases v, _config v) in
  cache_compiled_query eql json_mode compiled w
  = if is_preparable compiled then
      if _in_tx_with_ddl v then
        (Returned tt,
         switch_session
           (set_eql_to_compiled (LRU.set key compiled (_eql_to_compiled v)) v)
           w)
      else _cache_compiled_query key compiled w
    else (Raised AssertionError, w).
Proof.
  cbv zeta. unfold cache_compiled_query, assert, bind, ret, raise, self,
    update, put_view, switch_session.
  destruct (is_preparable compiled); [|done].
  by destruct (_in_tx_with_ddl (view w)).
Qed.

Lemma lookup_compiled_query_eq (eql : string) (json_mode : bool) (w : World) :
  let v := view w in
  let d := db w in
  let key := (eql, json_mode, _modaliases v, _config v) in
  lookup_compiled_query eql json_mode w
  = if _tx_error v then (Returned None, w)
    else if _in_tx_with_ddl v then
      (Returned (LRU.peek key (_eql_to_compiled v)),
       switch_session
         (set_eql_to_compiled (LRU.get key (_eql_to_compiled v)).2 v) w)
    else
      (Returned
         (match LRU.peek key (_db_eql_to_compiled d) with
          | Some u => if bool_decide (dbver u ≠ _dbver d) then None else Some u
          | None => None
          end),
       mkWorld (clock w) (ticks w)
         (mkDatabase (_name d) (_dbver d)
            (LRU.get key (_db_eql_to_compiled d)).2)
         v).
Proof.
  cbv zeta. unfold lookup_compiled_query, bind, ret, self, self_db, update,
    put_view, put_db, switch_session.
  destruct (_tx_error (view w)); [done|].
  destruct (_in_tx_with_ddl (view w)).
  - rewrite <- (LRUFacts.get_peek _ (_eql_to_compiled (view w))).
    by destruct (LRU.get _ (_eql_to_compiled (view w))).
  - rewrite <- (LRUFacts.get_peek _ (_db_eql_to_compiled (db w))).
    destruct (LRU.get _ (_db_eql_to_compiled (db w))) as [[u|] c];
      cbn [fst snd db view clock ticks]; [|done].
    by destruct (bool_decide _).
Qed.




(** Turning the outcomes of [bool_decide] tests into facts. *)
Ltac decided :=
  repeat match goal with
    | H : bool_decide _ = true |- _ => apply bool_decide_eq_true in H
    | H : bool_decide _ = false |- _ => apply bool_decide_eq_false in H
    end.

Ltac use_scoped H :=
  first
    [ done
    | destruct H as [Hflag Hempty]; split; intros Hcase;
      first [ discriminate Hcase
            | done
            | by apply Hflag
            | by apply Hempty
            | by (rewrite Hflag in * by done)
            | congruence ] ].

(** [X3]  A session keeps its local cache to transactions with DDL: the
    flag [in_tx_with_ddl] is set only inside a transaction, and whenever it
    is not set the local cache is empty.  Construction establishes this and
    every operation of the view keeps it, whether it returns or raises. *)
Theorem local_cache_only_in_ddl_tx :
  (∀ (n : nat) (user : string) (w : World),
     local_cache_scoped (view (View__init__ n user w).2))
  ∧ (∀ (qu : QueryUnit) (w : World),
       local_cache_scoped (view w) →
       local_cache_scoped (view (start qu w).2)
       ∧ local_cache_scoped (view (on_error qu w).2)
       ∧ local_cache_scoped (view (on_success qu w).2))
  ∧ (∀ w : World,
       local_cache_scoped (view w) →
       local_cache_scoped (view (abort_tx w).2)
       ∧ local_cache_scoped (view (rollback w).2))
  ∧ (∀ (eql : string) (json_mode : bool) (compiled : QueryUnit) (w : World),
       local_cache_scoped (view w) →
       local_cache_scoped
         (view (cache_compiled_query eql json_mode compiled w).2)
       ∧ local_cache_scoped (view (lookup_compiled_query eql json_mode w).2)).
Proof.
  unfold local_cache_scoped.
  split; [intros n user w; open_world w; by unfold_ops|].
  split; [|split].
  - intros qu w H. split; [|split]; open_world w; unfold_ops; crunch;
      use_scoped H.
  - intros w H. split; open_world w; unfold_ops; crunch; use_scoped H.
  - intros eql json_mode compiled w H. split.
    + rewrite cache_compiled_query_eq.
      destruct (is_preparable compiled) eqn:Hprep; [|done].
      destruct (_in_tx_with_ddl (view w)) eqn:Hddl.
      * cbn. rewrite Hddl. split; [apply H | intros [=]].
      * rewrite cache_compiled_query_db. rewrite Hprep.
        destruct (cached _ w) as [e|]; [destruct (_ <? _)%Z|];
          cbn [fst snd view]; by rewrite Hddl.
    + rewrite lookup_compiled_query_eq.
      destruct (_tx_error (view w)); [done|].
      destruct (_in_tx_with_ddl (view w)) eqn:Hddl; cbn.
      * rewrite Hddl. split; [apply H | intros [=]].
      * by rewrite Hddl.
Qed.


(** [X4]  When [start] returns, the session carries no transaction error,
    a session inside a transaction has a transaction id that is true as a
    Python value, and a unit with DDL inside a transaction has marked the
    transaction as one with DDL. *)
Theorem start_returned (qu : QueryUnit) (w : World) :
  (start qu w).1 = Returned tt →
  let v := view (start qu w).2 in
  _tx_error v = false
  ∧ (_in_tx v = true → truthy_txid (_txid v) = true)
  ∧ (_in_tx v = true → has_ddl qu = true → _in_tx_with_ddl v = true)
  ∧ _in_tx v = _in_tx (view w) || starts_tx qu.
Proof.
  intros Hret. open_world w. unfold_ops.
  crunch; try done; repeat split; intros; congruence.
Qed.


(** [X6]  Outside a transaction a failed unit does not poison the session:
    after [start] and [on_error] of a unit that starts no transaction, the
    error flag is still clear and [start] of the next unit does not raise
    [TransactionError]. *)
Theorem error_outside_tx (failed next : QueryUnit) (w : World) :
  _in_tx (view w) = false →
  _tx_error (view w) = false →
  starts_tx failed = false →
  let w1 := (on_error failed (start failed w).2).2 in
  w1 = w ∧ ∀ msg, (start next w1).1 ≠ Raised (TransactionError msg).
Proof.
  intros Hin Herr Hs. open_world w. unfold_ops. rewrite Hs.
  cbv beta iota. split; [done|]. intros msg. crunch; done.
Qed.

(** [X7]  The [on_success] of a unit that rolls the transaction back (and
    does not commit) returns exactly when the session is in a transaction
    and, once the unit's own deltas are applied, [config] and [modaliases]
    equal the snapshots taken before the transaction; it then leaves the
    session at its baseline with those values and the database untouched.
    Otherwise it raises [AssertionError]. *)
Theorem on_success_rollback (qu : QueryUnit) (w : World) :
  rollbacks_tx qu = true →
  commits_tx qu = false →
  let v := view w in
  let cfg := if truthy_map (config qu) then default ∅ (config qu)
             else _config v in
  let als := if truthy_map (modaliases qu) then default ∅ (modaliases qu)
             else _modaliases v in
  let restored := _in_tx v = true ∧ cfg = _config_before_tx v
                  ∧ als = _modaliases_before_tx v in
  (restored →
   (on_success qu w).1 = Returned tt
   ∧ tx_baseline (view (on_success qu w).2)
   ∧ _config (view (on_success qu w).2) = _config_before_tx v
   ∧ _modaliases (view (on_success qu w).2) = _modaliases_before_tx v
   ∧ db (on_success qu w).2 = db w)
  ∧ (¬ restored → (on_success qu w).1 = Raised AssertionError).
Proof.
  intros Hr Hc. cbv zeta. unfold tx_baseline. open_world w. unfold_ops.
  rewrite Hr, Hc. cbv beta iota. split.
  - intros (-> & Hcfg & Hals). crunch; decided;
      solve [done | congruence | repeat split; congruence].
  - intros Hno. crunch; decided; try done;
      exfalso; apply Hno; repeat split; congruence.
Qed.


Lemma start_keeps_config (qu : QueryUnit) (w : World) :
  _config (view (start qu w).2) = _config (view w)
  ∧ _modaliases (view (start qu w).2) = _modaliases (view w).
Proof. open_world w. unfold_ops. crunch; done. Qed.

Lemma on_success_config (qu : QueryUnit) (w : World) :
  (on_success qu w).1 = Returned tt →
  _config (view (on_success qu w).2)
  = (if truthy_map (config qu) then default ∅ (config qu)
     else _config (view w))
  ∧ _modaliases (view (on_success qu w).2)
    = (if truthy_map (modaliases qu) then default ∅ (modaliases qu)
       else _modaliases (view w)).
Proof.
  intros Hret. open_world w. unfold_ops. crunch; done.
Qed.

(** A unit that returned has replaced [config] and [modaliases] by its
    deltas, where they are true as Python values, and by nothing else. *)
Lemma run_unit_config (qu : QueryUnit) (w : World) :
  (run_unit qu w).1 = Returned tt →
  _config (view (run_unit qu w).2)
  = (if truthy_map (config qu) then default ∅ (config qu)
     else _config (view w))
  ∧ _modaliases (view (run_unit qu w).2)
    = (if truthy_map (modaliases qu) then default ∅ (modaliases qu)
       else _modaliases (view w)).
Proof.
  intros Hret. unfold run_unit, bind in *.
  pose proof (start_keeps_config qu w) as [Hc Ha].
  destruct (start qu w) as [[[]|e] w1]; [|done].
  cbn [snd] in Hc, Ha. rewrite <- Hc, <- Ha.
  by apply on_success_config.
Qed.

(** [X8]  After a run of units that all returned, [config] is the last
    config delta of the run that is a non-empty map, or the config before
    the run when there is none, and likewise for [modaliases]: an empty
    delta changes nothing, and commits and rollbacks do not change them. *)
Theorem config_after_run (qus : list QueryUnit) (w : World) :
  (run_units qus w).1 = Returned tt →
  _config (view (run_units qus w).2)
  = default (_config (view w)) (last (config_deltas qus))
  ∧ _modaliases (view (run_units qus w).2)
    = default (_modaliases (view w)) (last (modaliases_deltas qus)).
Proof.
  revert w. induction qus as [|qu qus IH]; intros w Hret; [done|].
  rewrite run_units_cons in Hret |- *.
  pose proof (run_unit_config qu w) as Hstep.
  destruct (run_unit qu w) as [[[]|e] w1]; [|done].
  destruct (Hstep eq_refl) as [Hcfg Hals]. cbn [snd] in Hcfg, Hals.
  destruct (IH w1 Hret) as [-> ->]. rewrite Hcfg, Hals.
  unfold config_deltas, modaliases_deltas. cbn [omap list_omap].
  clear IH Hstep Hret Hcfg Hals. split.
  - destruct (truthy_map (config qu)) eqn:Ht.
    + destruct (config qu) as [c|]; [|done]. cbn.
      rewrite last_cons. destruct (last _); reflexivity.
    + done.
  - destruct (truthy_map (modaliases qu)) eqn:Ht.
    + destruct (modaliases qu) as [a|]; [|done]. cbn.
      rewrite last_cons. destruct (last _); reflexivity.
    + done.
Qed.

(** A DDL unit that succeeds outside a transaction reads the clock once
    and stamps the database with the reading. *)
Lemma on_success_ddl_outside_tx (qu : QueryUnit) (w : World) :
  _in_tx (view w) = false → has_ddl qu = true →
  (on_success qu w).1 = Returned tt →
  _dbver (db (on_success qu w).2) = clock w (ticks w)
  ∧ ticks (on_success qu w).2 = S (ticks w)
  ∧ clock (on_success qu w).2 = clock w
  ∧ LRU.items (_db_eql_to_compiled (db (on_success qu w).2)) = [].
Proof.
  intros Hin Hddl Hret. open_world w. unfold_ops. rewrite Hddl in *.
  cbv beta iota in *. crunch; done.
Qed.

(** [X9]  With a strictly increasing clock, of two DDL units that succeed
    outside a transaction the later one leaves the database with the
    strictly greater [dbver]. *)
Theorem dbver_increases (qu1 qu2 : QueryUnit) (w1 w2 : World) :
  (∀ a b, (a < b)%nat → (clock w1 a < clock w1 b)%Z) →
  _in_tx (view w1) = false → has_ddl qu1 = true →
  (on_success qu1 w1).1 = Returned tt →
  clock w2 = clock w1 →
  (ticks (on_success qu1 w1).2 ≤ ticks w2)%nat →
  _in_tx (view w2) = false → has_ddl qu2 = true →
  (on_success qu2 w2).1 = Returned tt →
  (_dbver (db (on_success qu1 w1).2) < _dbver (db (on_success qu2 w2).2))%Z.
Proof.
  intros Hmono Hin1 Hddl1 Hret1 Hclk Hticks Hin2 Hddl2 Hret2.
  destruct (on_success_ddl_outside_tx qu1 w1 Hin1 Hddl1 Hret1)
    as (-> & Ht1 & _).
  destruct (on_success_ddl_outside_tx qu2 w2 Hin2 Hddl2 Hret2)
    as (-> & _).
  rewrite Hclk. apply Hmono. lia.
Qed.

(** What a lookup returns is decided by the database and the view. *)
Lemma lookup_result_ext (eql : string) (json_mode : bool) (w w' : World) :
  db w' = db w → view w' = view w →
  (lookup_compiled_query eql json_mode w').1
  = (lookup_compiled_query eql json_mode w).1.
Proof.
  intros Hdb Hview. rewrite !lookup_compiled_query_eq. cbv zeta.
  rewrite Hdb, Hview.
  destruct (_tx_error (view w)); [done|].
  by destruct (_in_tx_with_ddl (view w)).
Qed.

(** [X10]  Two sessions on one database.  While the first is inside a
    transaction, the units it runs without committing change nothing in
    what a lookup of the second returns.  Once a unit of the first has
    signalled DDL (a DDL unit outside a transaction, or the commit of a
    transaction with DDL), every lookup of a second session that is not
    inside a DDL transaction of its own is absent. *)
Theorem other_session_lookups (w : World) (other : DatabaseConnectionView)
    (eql : string) (json_mode : bool) :
  (∀ qus, _in_tx (view w) = true → Forall keeps_tx_open qus →
     (lookup_compiled_query eql json_mode
        (switch_session other (run_units qus w).2)).1
     = (lookup_compiled_query eql json_mode (switch_session other w)).1)
  ∧ (∀ qu,
       (_in_tx (view w) = false ∧ has_ddl qu = true)
       ∨ (_in_tx (view w) = true ∧ _in_tx_with_ddl (view w) = true
          ∧ commits_tx qu = true) →
       _in_tx_with_ddl other = false →
       (lookup_compiled_query eql json_mode
          (switch_session other (on_success qu w).2)).1
       = Returned None).
Proof.
  split.
  - intros qus Hin Hopen. apply lookup_result_ext; [|done].
    unfold switch_session. cbn [db]. by apply run_units_in_tx.
  - intros qu Hsignal Hother. rewrite lookup_compiled_query_eq. cbv zeta.
    unfold switch_session. cbn [view db fst]. rewrite Hother.
    destruct (_tx_error other); [done|].
    assert (Hclear :
      LRU.items (_db_eql_to_compiled (db (on_success qu w).2)) = []).
    { destruct Hsignal as [[Hin Hddl] | (Hin & Hddl & Hc)];
        open_world w; unfold_ops; rewrite ?Hddl, ?Hc; cbv beta iota;
        crunch; done. }
    unfold LRU.peek. by rewrite Hclear.
Qed.

(** [X11]  In a transaction with DDL that stays open, the [on_success] of a
    unit with DDL or of a savepoint rollback empties the session's local
    cache, so that every lookup that follows is absent; the [on_success] of
    any other unit leaves the local cache as it is. *)
Theorem local_cache_invalidation (qu : QueryUnit) (w : World) :
  _in_tx (view w) = true →
  _in_tx_with_ddl (view w) = true →
  keeps_tx_open qu →
  let w' := (on_success qu w).2 in
  _in_tx_with_ddl (view w') = true
  ∧ (has_ddl qu = true ∨ savepoint_rollbacks qu = true →
     ∀ eql json_mode,
       (lookup_compiled_query eql json_mode w').1 = Returned None)
  ∧ (has_ddl qu = false → savepoint_rollbacks qu = false →
     _eql_to_compiled (view w') = _eql_to_compiled (view w)).
Proof.
  intros Hin Hddl [Hc Hr]. cbv zeta.
  assert (Hflag : _in_tx_with_ddl (view (on_success qu w).2) = true).
  { open_world w. unfold_ops. rewrite Hc, Hr. cbv beta iota.
    crunch; done. }
  split; [done|]. split.
  - intros Hcase eql json_mode. rewrite lookup_compiled_query_eq. cbv zeta.
    rewrite Hflag. destruct (_tx_error _); [done|]. cbn [fst].
    assert (Hclear : LRU.items (_eql_to_compiled (view (on_success qu w).2))
                     = []).
    { open_world w. unfold_ops. rewrite Hc, Hr. cbv beta iota.
      destruct Hcase as [-> | ->]; cbv beta iota; crunch; done. }
    unfold LRU.peek. by rewrite Hclear.
  - intros Hnoddl Hnosp. open_world w. unfold_ops.
    rewrite Hc, Hr, Hnoddl, Hnosp. cbv beta iota. crunch; done.
Qed.

(** [X12]  [new_view] binds the view to the database registered under the
    name, creating it only when the name is new: a database already in the
    registry is found again as it is and the clock is not read; a new one
    is stamped with the clock's reading and has an empty cache.  No other
    entry of the registry changes, and the view starts at the baseline with
    an empty config and the default module alias. *)
Theorem new_view_registry (n : nat) (dbname user : string)
    (ix : DatabaseIndex) :
  let ix' := (new_view n dbname user ix).1.1 in
  let d := (new_view n dbname user ix).1.2 in
  let v := (new_view n dbname user ix).2 in
  _dbs ix' !! dbname = Some d
  ∧ (∀ name, name ≠ dbname → _dbs ix' !! name = _dbs ix !! name)
  ∧ (∀ d0, _dbs ix !! dbname = Some d0 → d = d0 ∧ ix' = ix)
  ∧ (_dbs ix !! dbname = None →
     d = mkDatabase dbname (index_clock ix (index_ticks ix)) (LRU.empty n)
     ∧ index_ticks ix' = S (index_ticks ix))
  ∧ tx_baseline v ∧ state_invariant v
  ∧ _config v = ∅ ∧ _modaliases v = {[ None := "default" ]}.
Proof.
  cbv zeta. unfold new_view.
  destruct (_dbs ix !! dbname) as [d0|] eqn:Hd; cbn [fst snd].
  - split; [done|]. split; [done|].
    split; [intros ? [= <-]; by split|]. split; [done|].
    repeat split; done.
  - cbn [_dbs]. rewrite lookup_insert_eq. split; [done|].
    split; [intros name Hne; by rewrite lookup_insert_ne|].
    split; [done|]. split; [done|]. repeat split; done.
Qed.

(** [X13]  Two sessions that ask for the same database name are bound to
    the same database: the second call finds the database of the first, and
    leaves the registry and the clock as they are. *)
Theorem new_view_same_database (n : nat) (dbname user1 user2 : string)
    (ix : DatabaseIndex) :
  let first := new_view n dbname user1 ix in
  new_view n dbname user2 first.1.1
  = (first.1.1, first.1.2, _new_view n user2).
Proof.
  cbv zeta. unfold new_view.
  destruct (_dbs ix !! dbname) as [d0|] eqn:Hd; cbn [fst snd _dbs].
  - by rewrite Hd.
  - by rewrite lookup_insert_eq.
Qed.



(** *** The statements at sample sessions *)



Lemma local_cache_only_in_ddl_tx_witness :
  local_cache_scoped
    (view (on_success sample_commit (sample_world_in_tx true)).2).
Proof.
  destruct local_cache_only_in_ddl_tx as (_ & Hunit & _).
  apply Hunit. split.
  - intros _. reflexivity.
  - intros H. vm_compute in H. discriminate H.
Defined.

Lemma start_returned_witness :
  _in_tx (view (start sample_begin (sample_world 8)).2) = true
  ∧ _tx_error (view (start sample_begin (sample_world 8)).2) = false.
Proof.
  destruct (start_returned sample_begin (sample_world 8) eq_refl)
    as (Herr & _ & _ & Hin).
  split; [exact Hin | exact Herr].
Defined.


Lemma error_outside_tx_witness :
  (on_error (sample_unit 5) (start (sample_unit 5) (sample_world 8)).2).2
  = sample_world 8.
Proof.
  exact (proj1 (error_outside_tx (sample_unit 5) (sample_unit 5)
                  (sample_world 8) eq_refl eq_refl eq_refl)).
Defined.

Lemma on_success_rollback_witness :
  (on_success sample_rollback (sample_world_in_tx false)).1 = Returned tt
  ∧ (on_success sample_rollback (sample_world 8)).1 = Raised AssertionError.
Proof.
  split.
  - refine (proj1 (proj1 (on_success_rollback sample_rollback
                            (sample_world_in_tx false) eq_refl eq_refl) _)).
    repeat split; reflexivity.
  - refine (proj2 (on_success_rollback sample_rollback (sample_world 8)
                     eq_refl eq_refl) _).
    intros (Hin & _). vm_compute in Hin. discriminate Hin.
Defined.

Lemma config_after_run_witness :
  _config (view (run_units [sample_begin; sample_set_config; sample_unit 5]
                   (sample_world 8)).2)
  = {[ "format" := "json" ]}.
Proof.
  exact (proj1 (config_after_run
                  [sample_begin; sample_set_config; sample_unit 5]
                  (sample_world 8) eq_refl)).
Defined.

(** Two DDL units outside a transaction: stamps 6, then 7. *)
Lemma dbver_increases_witness :
  let w1 := sample_world 8 in
  let w2 := (on_success sample_ddl w1).2 in
  (_dbver (db w2) < _dbver (db (on_success sample_ddl w2).2))%Z.
Proof.
  intros w1 w2.
  refine (dbver_increases sample_ddl sample_ddl w1 w2 _ eq_refl eq_refl
            eq_refl eq_refl _ eq_refl eq_refl eq_refl).
  - intros a b Hab. simpl. lia.
  - vm_compute. lia.
Defined.

Lemma other_session_lookups_witness :
  (lookup_compiled_query "select 1" false
     (switch_session (_new_view 8 "other")
        (on_success sample_ddl (sample_world 8)).2)).1
  = Returned None.
Proof.
  exact (proj2 (other_session_lookups (sample_world 8) (_new_view 8 "other")
                  "select 1" false)
           sample_ddl (or_introl (conj eq_refl eq_refl)) eq_refl).
Defined.

Lemma local_cache_invalidation_witness :
  (lookup_compiled_query "select 1" false
     (on_success sample_ddl (sample_world_in_tx true)).2).1
  = Returned None.
Proof.
  exact (proj1 (proj2 (local_cache_invalidation sample_ddl
                         (sample_world_in_tx true) eq_refl eq_refl
                         (conj eq_refl eq_refl)))
           (or_introl eq_refl) "select 1" false).
Defined.

(** The first view on a name creates the database, stamped 100. *)
Lemma new_view_registry_witness :
  (new_view 8 "db" "user" sample_index).1.2
  = mkDatabase "db" 100 (LRU.empty 8).
Proof.
  exact (proj1 (proj1 (proj2 (proj2 (proj2
           (new_view_registry 8 "db" "user" sample_index)))) eq_refl)).
Defined.


End SessionsProps.

(** ** Overload matching: further properties *)

Module FuncEdgeProps.
Import Func FuncProps.

Section Schema.
Context {Class : Type} (issubclass : Class → Class → bool).
Implicit Types (func : Function Class) (pts args : list Class).

Local Abbreviation matches a p := (issubclass a p = true).

Lemma check_defaults_enumerate func (start : Z)
    (pds : list (option string)) :
  check_defaults func (enumerate start pds) = true
  ↔ ∀ i, pds !! i = Some None → varparam func = Some (start + Z.of_nat i)%Z.
Proof.
  revert start. induction pds as [|pd pds IH]; intros start; simpl.
  - split; [by intros _ i | done].
  - destruct (bool_decide (pd = None)) eqn:Hpd; simpl.
    + apply bool_decide_eq_true in Hpd as ->.
      case_bool_decide as Hvp; simpl.
      * split; [done|]. intros Hall. exfalso. apply Hvp.
        rewrite (Hall 0%nat eq_refl). f_equal. lia.
      * rewrite IH. split.
        -- intros Hall [|i] Hi.
           ++ rewrite <- Hvp. f_equal. lia.
           ++ rewrite (Hall i Hi). f_equal. lia.
        -- intros Hall i Hi. rewrite (Hall (S i) Hi). f_equal. lia.
    + apply bool_decide_eq_false in Hpd. rewrite IH. split.
      * intros Hall [|i] Hi.
        -- simpl in Hi. by injection Hi.
        -- rewrite (Hall i Hi). f_equal. lia.
      * intros Hall i Hi. rewrite (Hall (S i) Hi). f_equal. lia.
Qed.

(** [X15]  A call without arguments never raises.  It matches an overload
    without parameters, and an overload with parameters exactly when every
    entry of [paramdefaults] that is [None] sits at the variadic position
    (counted from 1): the loop runs over [paramdefaults], so parameters for
    which the list has no entry at all do not stand in the way. *)
Theorem check_function_no_arguments func :
  (∃ verdict, check_function issubclass func [] = Returned verdict)
  ∧ (check_function issubclass func [] = Returned true
     ↔ paramtypes func = []
       ∨ ∀ i, paramdefaults func !! i = Some None →
              varparam func = Some (Z.of_nat i + 1)%Z).
Proof.
  unfold check_function. destruct (paramtypes func) as [|p pts] eqn:Hpts.
  - split; [by eexists | split; [by left | done]].
  - split; [by eexists|]. split.
    + intros [= Hok]. right. intros i Hi.
      rewrite (proj1 (check_defaults_enumerate func 1 _) Hok i Hi).
      f_equal. lia.
    + intros [? | Hall]; [done|]. f_equal.
      apply check_defaults_enumerate. intros i Hi.
      rewrite (Hall i Hi). f_equal. lia.
Qed.

Lemma check_pairs_same_length func pts args :
  length args = length pts →
  check_pairs issubclass func (zip_longest pts args)
  = Returned (forallb (λ ap, issubclass ap.1 ap.2) (zip args pts)).
Proof.
  revert args. induction pts as [|p pts IH]; intros [|a args] Hlen;
    try done.
  rewrite check_pairs_cons_cons. simpl.
  destruct (issubclass a p); [|done]. apply IH. simpl in Hlen. lia.
Qed.

(** [X16]  Called with exactly as many arguments as it has parameters,
    [check_function] never raises: its verdict is the pointwise subtype
    test of the arguments against the parameters, whatever the defaults
    and the variadic position are. *)
Theorem check_function_exact_arity func args :
  length args = length (paramtypes func) →
  check_function issubclass func args
  = Returned (forallb (λ ap, issubclass ap.1 ap.2) (zip args (paramtypes func)))
  ∧ (check_function issubclass func args = Returned true
     ↔ Forall2 (λ a p, matches a p) args (paramtypes func)).
Proof.
  intros Hlen.
  assert (Heq : check_function issubclass func args
    = Returned (forallb (λ ap, issubclass ap.1 ap.2)
                  (zip args (paramtypes func)))).
  { unfold check_function.
    destruct (paramtypes func) as [|p pts] eqn:Hpts, args as [|a args];
      try done.
    by apply check_pairs_same_length. }
  split; [done|]. rewrite Heq. clear Heq.
  revert Hlen. generalize (paramtypes func). intros pts. revert pts.
  induction args as [|a args IH]; intros [|p pts] Hlen; try done.
  simpl. destruct (issubclass a p) eqn:Hap; simpl.
    + rewrite IH by (simpl in Hlen; lia). split.
      * intros H. by constructor.
      * intros H. by inversion H.
    + split; [done|]. intros H. inversion H. congruence.
Qed.

Lemma py_index_index_error {A} (l : list A) (i : Z) :
  py_index l i = Raised IndexError
  ↔ (i < - Z.of_nat (length l) ∨ Z.of_nat (length l) ≤ i)%Z.
Proof.
  unfold py_index.
  destruct (i <? 0)%Z eqn:Hneg;
    [apply Z.ltb_lt in Hneg | apply Z.ltb_ge in Hneg].
  - destruct ((0 <=? _) && _)%Z eqn:Hin.
    + apply andb_true_iff in Hin as [H0%Z.leb_le Hn%Z.ltb_lt].
      destruct (lookup_lt_is_Some_2 l (Z.to_nat (Z.of_nat (length l) + i)))
        as [a ->]; [lia|]. split; [done | lia].
    + apply andb_false_iff in Hin as [H0%Z.leb_gt | Hn%Z.ltb_ge];
        (split; [lia | done]).
  - destruct ((0 <=? _) && _)%Z eqn:Hin.
    + apply andb_true_iff in Hin as [H0%Z.leb_le Hn%Z.ltb_lt].
      destruct (lookup_lt_is_Some_2 l (Z.to_nat i)) as [a ->]; [lia|].
      split; [done | lia].
    + apply andb_false_iff in Hin as [H0%Z.leb_gt | Hn%Z.ltb_ge];
        (split; [lia | done]).
Qed.

Lemma check_pairs_index_error func pts args :
  check_pairs issubclass func (zip_longest pts args) = Raised IndexError
  ↔ length pts < length args
    ∧ Forall2 (λ a p, matches a p) (take (length pts) args) pts
    ∧ ∃ vp, varparam func = Some vp
        ∧ py_index (paramtypes func) (vp - 1) = Raised IndexError.
Proof.
  revert args. induction pts as [|p pts IH]; intros args.
  - destruct args as [|a0 args0] eqn:Hargs.
    + simpl. split; [done | intros [? _]; lia].
    + rewrite <- Hargs. assert (Hne : args ≠ []) by (by rewrite Hargs).
      rewrite check_pairs_surplus by done.
      assert (Hlen : length (@nil Class) < length args)
        by (rewrite Hargs; simpl; lia).
      change (take (length (@nil Class)) args) with (take 0 args).
      rewrite take_0.
      destruct (varparam func) as [vp|];
        [|split; [done | by intros (_ & _ & ? & ? & _)]].
      destruct (py_index (paramtypes func) (vp - 1)) as [pt|e] eqn:Hpt; simpl.
      * split; [done|]. intros (_ & _ & vp' & [= <-] & Hpt').
        rewrite Hpt in Hpt'. discriminate.
      * apply py_index_raises in Hpt as Heq. subst e. split; [|done].
        intros _. split; [done|]. split; [constructor|]. by exists vp.
  - destruct args as [|a args].
    + rewrite check_pairs_cons_nil. split; [done|]. simpl. intros [? _]. lia.
    + rewrite check_pairs_cons_cons. simpl.
      destruct (issubclass a p) eqn:Hap.
      * rewrite IH. split.
        -- intros (Hlen & Hall & Hvp). split; [lia|]. split; [|done].
           by constructor.
        -- intros (Hlen & Hall & Hvp). split; [lia|]. split; [|done].
           by inversion Hall.
      * split; [done|]. intros (_ & Hall & _). inversion Hall. congruence.
Qed.

Lemma check_pairs_attribute_error func pts args :
  check_pairs issubclass func (zip_longest pts args) = Raised AttributeError
  ↔ length args < length pts
    ∧ Forall2 (λ a p, matches a p) args (take (length args) pts).
Proof.
  destruct (decide (length args < length pts)) as [Hlt|Hge].
  - destruct (check_pairs_short issubclass func pts args Hlt) as [Hy Hn].
    split.
    + intros Hraise. split; [done|].
      destruct (decide (Forall2 (λ a p, matches a p) args
                          (take (length args) pts))) as [|Hno]; [done|].
      rewrite (Hn Hno) in Hraise. discriminate.
    + intros [_ Hall]. by apply Hy.
  - split; [|intros [? _]; lia]. intros Hraise. exfalso.
    revert args Hge Hraise. induction pts as [|p pts IH]; intros args Hge.
    + destruct args as [|a0 args0] eqn:Hargs; [done|].
      rewrite <- Hargs. rewrite check_pairs_surplus by (by rewrite Hargs).
      destruct (varparam func) as [vp|]; [|done].
      destruct (py_index (paramtypes func) (vp - 1)) as [pt|e] eqn:Hpt;
        simpl; [done|].
      apply py_index_raises in Hpt. by subst e.
    + destruct args as [|a args]; [simpl in Hge; lia|].
      rewrite check_pairs_cons_cons.
      destruct (issubclass a p); [|done].
      apply IH. simpl in Hge. lia.
Qed.

(** [X17]  The exceptions of [check_function].  It raises nothing but
    [AttributeError] and [IndexError].  [AttributeError] is raised exactly
    when there are arguments, fewer than parameters, and each is a subtype
    of its parameter.  [IndexError] is raised exactly when there are more
    arguments than parameters, the paired ones are subtypes of their
    parameters, and [varparam] lies outside [-n + 1 .. n] for [n]
    parameters; a [varparam] of 0 or below, down to [-n + 1], is taken as a
    Python index from the end and raises nothing. *)
Theorem check_function_exceptions func args :
  let n := length (paramtypes func) in
  (∀ e, check_function issubclass func args = Raised e →
        e = AttributeError ∨ e = IndexError)
  ∧ (check_function issubclass func args = Raised AttributeError
     ↔ 0 < length args < n
       ∧ Forall2 (λ a p, matches a p) args (take (length args) (paramtypes func)))
  ∧ (check_function issubclass func args = Raised IndexError
     ↔ 0 < n < length args
       ∧ Forall2 (λ a p, matches a p) (take n args) (paramtypes func)
       ∧ ∃ vp, varparam func = Some vp
           ∧ (vp ≤ - Z.of_nat n ∨ Z.of_nat n < vp)%Z).
Proof.
  cbv zeta. split; [intros e; apply check_function_raises|].
  destruct (paramtypes func) as [|p pts] eqn:Hpts.
  - unfold check_function. rewrite Hpts. simpl.
    split; (split; [by destruct args | lia]).
  - destruct args as [|a args].
    + unfold check_function. rewrite Hpts. simpl.
      split; (split; [done | lia]).
    + rewrite check_function_nonempty by (by rewrite ?Hpts).
      rewrite Hpts, check_pairs_attribute_error, check_pairs_index_error.
      rewrite Hpts. split.
      * split; [intros [? ?]; split; [simpl in *; lia | done]
               | intros [[_ ?] ?]; by split].
      * split.
        -- intros (Hlen & Hall & vp & Hvp & Hidx).
           split; [simpl in *; lia|]. split; [done|]. exists vp.
           split; [done|]. apply py_index_index_error in Hidx.
           simpl in *. lia.
        -- intros ([_ Hlen] & Hall & vp & Hvp & Hidx).
           split; [done|]. split; [done|]. exists vp. split; [done|].
           apply py_index_index_error. simpl in *. lia.
Qed.

(** [X18]  The selection loop of [compile_FunctionCall] raises in two
    ways only: 'could not find a function variant' when [check_function]
    rejects every overload, and the exception of the first overload on which
    [check_function] raises, when the ones before it were rejected.  In the
    second case the overloads after it are not tried, whether they match or
    not. *)
Theorem select_outcomes funcname (funcs : list (Function Class)) args
    (e : exn) :
  compile_FunctionCall_select issubclass funcname funcs args = Raised e
  ↔ (e = EdgeQLError ("could not find a function variant " +:+ funcname)
     ∧ Forall (λ g, check_function issubclass g args = Returned false) funcs)
    ∨ (∃ before g after,
         funcs = before ++ g :: after
         ∧ Forall (λ g, check_function issubclass g args = Returned false)
             before
         ∧ check_function issubclass g args = Raised e).
Proof.
  split.
  - induction funcs as [|g funcs IH]; simpl.
    + intros [= <-]. left. by split.
    + destruct (check_function issubclass g args) as [[]|e'] eqn:Hg; simpl;
        [done| |].
      * intros Hsel. destruct (IH Hsel)
          as [[-> Hall] | (before & g' & after & -> & Hall & Hraise)].
        -- left. split; [done | by constructor].
        -- right. exists (g :: before), g', after.
           split; [done|]. split; [by constructor | done].
      * intros [= ->]. right. exists [], g, funcs. by repeat split.
  - intros [[-> Hall] | (before & g & after & -> & Hall & Hraise)].
    + by apply select_none.
    + induction Hall as [|g' before Hg _ IH]; simpl.
      * by rewrite Hraise.
      * by rewrite Hg.
Qed.

End Schema.

(** *** The statements on the sample schema *)

(** [h()] matches [h(int64 = 0, int64...)]: the parameter without default
    is the variadic one. *)
Lemma check_function_no_arguments_witness :
  check_function sample_issubclass FuncArgs.sample_h [] = Returned true.
Proof.
  apply (proj2 (check_function_no_arguments sample_issubclass
                  FuncArgs.sample_h)).
  right. intros [|[|i]] Hi; simpl in Hi; try discriminate Hi; reflexivity.
Defined.

Lemma check_function_exact_arity_witness :
  check_function sample_issubclass sample_g [Str; Int64] = Returned true.
Proof.
  exact (proj1 (check_function_exact_arity sample_issubclass sample_g
                  [Str; Int64] eq_refl)).
Defined.

(** Two arguments for one parameter, with [varparam] 5. *)
Lemma check_function_exceptions_witness :
  check_function sample_issubclass FuncArgs.sample_stray_variadic
    [Int64; Int64]
  = Raised IndexError.
Proof.
  apply (proj2 (proj2 (check_function_exceptions sample_issubclass
                         FuncArgs.sample_stray_variadic [Int64; Int64]))).
  split; [simpl; lia|]. split; [repeat constructor|].
  exists 5%Z. split; [reflexivity | simpl; lia].
Defined.

(** [g("a")] with the overloads [g(str, int64)] and [g(str)]: the first
    raises, and the second, which matches, is not reached. *)
Lemma select_outcomes_witness :
  compile_FunctionCall_select sample_issubclass "g"
    [sample_g; FuncArgs.sample_g1] [Str]
  = Raised AttributeError
  ∧ check_function sample_issubclass FuncArgs.sample_g1 [Str] = Returned true.
Proof.
  split; [|reflexivity].
  apply (select_outcomes sample_issubclass "g"
           [sample_g; FuncArgs.sample_g1] [Str] AttributeError).
  right. exists [], sample_g, [FuncArgs.sample_g1].
  split; [reflexivity|]. split; [constructor | reflexivity].
Defined.

End FuncEdgeProps.

(** ** The arguments of a call *)

Module FuncArgsProps.
Import FuncArgs.
#[local] Set Warnings "-clear-no-such-hyp".

Section Compiler.
Context {Expr IR Class Ctx Exn : Type}.
Context (compile_set : Expr → Ctx → (Exn + IR) * Ctx).
Context (infer_type : IR → Ctx → option Class).
Implicit Types (l pre post : list (CallArg Expr)) (a : CallArg Expr)
  (s r : Processed IR Class) (ctx : Ctx).

Local Abbreviation loop := (process_func_args_loop compile_set infer_type).

Lemma enumerate_app {A} (start : Z) (l1 l2 : list A) :
  Func.enumerate start (l1 ++ l2)
  = Func.enumerate start l1
    ++ Func.enumerate (start + Z.of_nat (length l1)) l2.
Proof.
  revert start. induction l1 as [|x l1 IH]; intros start; simpl.
  - f_equal. lia.
  - rewrite IH. do 3 f_equal. lia.
Qed.

Lemma process_func_args_loop_app funcname
    (items1 items2 : list (Z * CallArg Expr)) s ctx :
  loop funcname (items1 ++ items2) s ctx
  = match loop funcname items1 s ctx with
    | (Returned s1, ctx1) => loop funcname items2 s1 ctx1
    | (Raised e, ctx1) => (Raised e, ctx1)
    end.
Proof.
  revert s ctx. induction items1 as [|[ai a] items1 IH]; intros s ctx;
    [done|]. simpl.
  destruct (compile_set (arg_expr a) ctx) as [[e|arg] ctx1]; [done|].
  destruct (infer_type arg ctx1) as [t|]; [|done]. apply IH.
Qed.

(** What the loop adds to its three locals when it returns. *)
Lemma process_func_args_loop_returned funcname (start : Z) l s ctx r ctx' :
  loop funcname (Func.enumerate start l) s ctx = (Returned r, ctx') →
  length (arg_types r) = length (arg_types s) + length l
  ∧ length (args r) = length (args s) + length (positional l)
  ∧ dom (kwargs r) = list_to_set (keyword_names l) ∪ dom (kwargs s)
  ∧ (keyword_names l = [] →
     Forall2 (λ ir t, ∃ c, infer_type ir c = Some t) (args s) (arg_types s) →
     Forall2 (λ ir t, ∃ c, infer_type ir c = Some t) (args r) (arg_types r)).
Proof.
  revert start s ctx. induction l as [|a l IH]; intros start s ctx; simpl.
  - intros [= <- <-]. repeat split; [lia | lia | set_solver | done].
  - destruct (compile_set (arg_expr a) ctx) as [[e|arg] ctx1]; [done|].
    destruct (infer_type arg ctx1) as [t|] eqn:Ht; [|done].
    intros Hloop. apply IH in Hloop as (Htypes & Hargs & Hkw & Hrel).
    cbn [arg_types args kwargs] in *. rewrite length_app in Htypes.
    destruct a as [name e|e]; cbn [store arg_types args kwargs] in *.
    + split; [simpl in *; lia|]. split; [done|].
      split; [rewrite Hkw, dom_insert_L; set_solver | done].
    + rewrite length_app in Hargs.
      split; [simpl in *; lia|]. split; [simpl in *; lia|]. split; [done|].
      intros Hnames Hinit. apply Hrel; [done|].
      apply Forall2_app; [done|]. constructor; [by exists ctx1 | constructor].
Qed.

(** [X19]  When [process_func_args] returns, every argument of the call,
    named or not, has contributed one type to [arg_types]; [args] holds one
    entry for each argument that is not named, and [kwargs] has exactly the
    names of the named ones (a repeated name is stored once and still
    counted in [arg_types]).  In a call without named arguments each entry
    of [arg_types] is a type inferred for the entry of [args] at the same
    position. *)
Theorem process_func_args_returned (expr_args : list (CallArg Expr))
    (funcname : string) ctx r ctx' :
  process_func_args compile_set infer_type expr_args funcname ctx
  = (Returned r, ctx') →
  length (arg_types r) = length expr_args
  ∧ length (args r) = length (positional expr_args)
  ∧ dom (kwargs r) = list_to_set (keyword_names expr_args)
  ∧ (keyword_names expr_args = [] →
     Forall2 (λ ir t, ∃ c, infer_type ir c = Some t) (args r) (arg_types r)).
Proof.
  intros Hret. apply process_func_args_loop_returned in Hret
    as (Htypes & Hargs & Hkw & Hrel).
  split; [done|]. split; [done|].
  split; [rewrite Hkw; set_solver|].
  intros Hnames. apply Hrel; [done | constructor].
Qed.

(** [X20]  The arguments are processed in call order and the first failure
    ends the call.  If the arguments before [a] are processed without
    error, then an exception of the compiler on [a] is propagated, and an
    argument [a] that compiles but whose type is not resolved makes
    [process_func_args] raise 'could not resolve the type of argument',
    naming a named argument by its name and any other by its position in
    the whole argument list, counted from 0. *)
Theorem process_func_args_fails_at pre a post (funcname : string)
    ctx r ctx1 ctx2 :
  process_func_args compile_set infer_type pre funcname ctx
  = (Returned r, ctx1) →
  let all := process_func_args compile_set infer_type (pre ++ a :: post)
               funcname ctx in
  (∀ e, compile_set (arg_expr a) ctx1 = (inl e, ctx2) →
        all = (Raised (Propagated e), ctx2))
  ∧ (∀ arg, compile_set (arg_expr a) ctx1 = (inr arg, ctx2) →
       infer_type arg ctx2 = None →
       all = (Raised (EdgeQLError
                ("could not resolve the type of argument $"
                 +:+ match a with
                     | NamedArg name _ => name
                     | Positional _ => pretty (Z.of_nat (length pre))
                     end
                 +:+ " of function " +:+ funcname)), ctx2)).
Proof.
  intros Hpre. cbv zeta. unfold process_func_args in *.
  rewrite enumerate_app, process_func_args_loop_app, Hpre. simpl.
  split.
  - intros e ->. done.
  - intros arg -> ->. unfold unresolved. by destruct a.
Qed.

End Compiler.

(** *** The statements on the sample compiler *)

Lemma process_func_args_returned_witness :
  let call := [Positional (IntLit 1); NamedArg "x" (IntLit 2)] in
  ∃ r ctx',
    process_func_args sample_compile_set sample_infer_type call "f" 0%nat
    = (Returned r, ctx')
    ∧ length (arg_types r) = 2.
Proof.
  intros call. eexists _, _. split; [vm_compute; reflexivity|].
  refine (proj1 (process_func_args_returned sample_compile_set
                   sample_infer_type call "f" 0%nat _ _ eq_refl)).
Defined.

Lemma process_func_args_fails_at_witness :
  (process_func_args sample_compile_set sample_infer_type
     [Positional (IntLit 1); NamedArg "x" (IntLit 2);
      Positional (Param "p"); Positional (IntLit 3)] "f" 0%nat).1
  = Raised (EdgeQLError
              "could not resolve the type of argument $2 of function f").
Proof.
  refine (f_equal fst
    (proj2 (process_func_args_fails_at sample_compile_set sample_infer_type
              [Positional (IntLit 1); NamedArg "x" (IntLit 2)]
              (Positional (Param "p")) [Positional (IntLit 3)] "f"
              0%nat _ 2%nat 3%nat _) (Param "p") eq_refl eq_refl)).
  vm_compute. reflexivity.
Defined.

End FuncArgsProps.

(** ** Document reduction: which error is reported *)

Module DocumentErrorProps.
Import Document DocumentProps.
#[local] Set Warnings "-clear-no-such-hyp".

(** The name check stops at the first name that repeats an earlier one. *)
Lemma unique_names_first_repeat (names : list string) (seen : gset string)
    (n : string) (entity : option string) :
  unique_names_loop names seen = Raised (GraphQLUniquenessError n entity)
  ↔ entity = None
    ∧ ∃ pre post, names = pre ++ n :: post
        ∧ NoDup pre ∧ (∀ m, m ∈ pre → m ∉ seen)
        ∧ (n ∈ pre ∨ n ∈ seen).
Proof.
  revert seen. induction names as [|m names IH]; intros seen; simpl.
  - split; [done|]. intros (_ & pre & post & Heq & _). by destruct pre.
  - case_bool_decide as Hin.
    + rewrite IH. split.
      * intros (-> & pre & post & -> & Hnd & Hseen & Hn). split; [done|].
        exists (m :: pre), post. split; [done|]. split.
        { apply NoDup_cons. split; [|done]. intros Hm.
          specialize (Hseen m Hm). set_solver. }
        split.
        { intros k [->|Hk]%elem_of_cons; [done|].
          specialize (Hseen k Hk). set_solver. }
        destruct Hn as [Hn|Hn]; [left; by right|].
        apply elem_of_union in Hn as [Hn%elem_of_singleton|Hn];
          [left; subst; by left | by right].
      * intros (-> & pre & post & Heq & Hnd & Hseen & Hn). split; [done|].
        destruct pre as [|m' pre]; simpl in Heq.
        { injection Heq as -> ->. destruct Hn as [Hn|Hn];
            [inversion Hn | done]. }
        injection Heq as -> ->. apply NoDup_cons in Hnd as [Hnin Hnd].
        exists pre, post. split; [done|]. split; [done|]. split.
        { intros k Hk. assert (k ≠ m') by (intros ->; done).
          assert (Hk' : k ∈ m' :: pre) by (by right).
          specialize (Hseen k Hk'). set_solver. }
        destruct Hn as [[->|Hn]%elem_of_cons|Hn];
          [right; set_solver | by left | right; set_solver].
    + split.
      * intros [= <- <-]. split; [done|]. exists [], names.
        split; [done|]. split; [constructor|].
        split; [intros k Hk; inversion Hk | by right].
      * intros (-> & pre & post & Heq & Hnd & Hseen & Hn).
        destruct pre as [|m' pre]; simpl in Heq.
        { by injection Heq as -> ->. }
        injection Heq as -> ->. exfalso. apply (Hseen m'); [by left | done].
Qed.

(** [X21]  The reduction of an argument list, or of a variable list,
    raises at the first entry whose name repeats the name of an earlier
    entry, and the error carries that name.  It raises in no other way. *)
Theorem repeated_name_reported :
  (∀ (args : list Argument) (e : exn),
     reduce_LPAREN_ArgumentList_RPAREN args = Raised e
     ↔ ∃ pre a post,
         args = pre ++ a :: post
         ∧ NoDup (map arg_name pre)
         ∧ arg_name a ∈ map arg_name pre
         ∧ e = GraphQLUniquenessError (arg_name a) None)
  ∧ (∀ (vars : list VariableDefinition) (e : exn),
       reduce_LPAREN_VariableList_RPAREN vars = Raised e
       ↔ ∃ pre v post,
           vars = pre ++ v :: post
           ∧ NoDup (map var_name pre)
           ∧ var_name v ∈ map var_name pre
           ∧ e = GraphQLUniquenessError (var_name v) None).
Proof.
  assert (Hgen : ∀ {A} (name : A → string) (l : list A) (e : exn),
    bind (unique_names_loop (map name l) ∅) (λ _, Returned l) = Raised e
    ↔ ∃ pre a post,
        l = pre ++ a :: post
        ∧ NoDup (map name pre)
        ∧ name a ∈ map name pre
        ∧ e = GraphQLUniquenessError (name a) None).
  { intros A name l e. split.
    - destruct (unique_names_loop (map name l) ∅) as [[]|e'] eqn:Hloop;
        simpl; [done|]. intros [= ->].
      assert (He : ∃ n, e = GraphQLUniquenessError n None).
      { destruct (unique_names_outcome (map name l) ∅)
          as [(_ & _ & Hret) | [_ (n & Hraise)]]; [congruence|].
        exists n. congruence. }
      destruct He as [n ->].
      apply unique_names_first_repeat in Hloop
        as (_ & pre & post & Heq & Hnd & _ & [Hn|Hn]); [|set_solver].
      apply map_eq_app in Heq as (lpre & lrest & -> & <- & Hrest).
      apply map_eq_cons in Hrest as (a & lpost & -> & <- & <-).
      by exists lpre, a, lpost.
    - intros (pre & a & post & -> & Hnd & Hn & ->).
      rewrite (proj2 (unique_names_first_repeat _ ∅ (name a) None)); [done|].
      split; [done|]. exists (map name pre), (map name post).
      rewrite map_app. split; [done|]. split; [done|].
      split; [intros m _; set_solver | by left]. }
  split; [intros args e; apply Hgen | intros vars e; apply Hgen].
Qed.

(** A repeated name is met at the first definition that repeats one of
    the definitions before it. *)
Lemma loop_first_repeat (kid : list Definition_) (s : Locals) (e : exn) :
  reduce_Definitions_loop kid s = Raised e →
  ∃ pre defn post,
    kid = pre ++ defn :: post
    ∧ names_fresh pre s
    ∧ reduce_Definitions_step defn (loop_result pre s) = Raised e.
Proof.
  revert s. induction kid as [|defn rest IH]; intros s; [done|]. simpl.
  assert (Hnil : loop_result [] s = s).
  { assert (Hfresh : names_fresh [] s).
    { repeat split; try constructor; intros n Hn; inversion Hn. }
    apply loop_fresh in Hfresh. simpl in Hfresh. congruence. }
  destruct (step_outcome defn s)
    as [(name & entity & Hstep & _) | (s1 & Hstep & Hback)];
    rewrite Hstep; simpl.
  - intros [= <-]. exists [], defn, rest. rewrite Hnil.
    split; [done|]. split; [|done].
    repeat split; try constructor; intros n Hn; inversion Hn.
  - intros Hloop. destruct (IH s1 Hloop)
      as (pre & defn' & post & -> & Hfresh & Hraise).
    exists (defn :: pre), defn', post. split; [done|].
    specialize (Hback pre Hfresh). split; [done|].
    destruct (step_fresh defn pre s Hback) as (s1' & Hstep' & _ & <-).
    congruence.
Qed.

Lemma loop_app (pre post : list Definition_) (s : Locals) :
  reduce_Definitions_loop (pre ++ post) s
  = bind (reduce_Definitions_loop pre s) (reduce_Definitions_loop post).
Proof.
  revert s. induction pre as [|defn pre IH]; intros s; [done|]. simpl.
  destruct (reduce_Definitions_step defn s); [apply IH | done].
Qed.

(** [X22]  [reduce_Definitions] raises a uniqueness error for the first
    definition that repeats a name: a named operation whose name an earlier
    operation has (entity 'operation'), or a fragment whose name an earlier
    fragment has (entity 'fragment').  Operations and fragments do not
    share names with each other, and what follows the definition, or a
    misplaced short form before it, plays no part. *)
Theorem uniqueness_error_reported (kid : list Definition_) (n : string)
    (entity : option string) :
  reduce_Definitions kid = Raised (GraphQLUniquenessError n entity)
  ↔ ∃ pre defn post,
      kid = pre ++ defn :: post
      ∧ NoDup (operation_names pre) ∧ NoDup (fragment_names pre)
      ∧ ((∃ op, defn = Operation op ∧ op_name op = Some n
                ∧ n ∈ operation_names pre ∧ entity = Some "operation")
         ∨ (∃ fr, defn = Fragment fr ∧ frag_name fr = n
                  ∧ n ∈ fragment_names pre ∧ entity = Some "fragment")).
Proof.
  unfold reduce_Definitions. split.
  - destruct (reduce_Definitions_loop kid _) as [s|e] eqn:Hloop; simpl.
    { destruct (short s); [destruct (_ <? _)%Z|]; done. }
    intros [= ->]. apply loop_first_repeat in Hloop
      as (pre & defn & post & -> & Hfresh & Hraise).
    apply names_fresh_init in Hfresh as [Hon Hfn].
    exists pre, defn, post. repeat split; try done.
    destruct defn as [op|fr]; simpl in Hraise.
    + left. exists op. destruct (op_name op) as [m|];
        [|by destruct (_ && _)].
      case_bool_decide as Hin; [done|]. injection Hraise as -> <-.
      repeat split; try done. set_solver.
    + right. exists fr. case_bool_decide as Hin; [done|].
      injection Hraise as <- <-. repeat split; try done. set_solver.
  - intros (pre & defn & post & -> & Hon & Hfn & Hcase).
    rewrite loop_app, loop_fresh by (by apply names_fresh_init). simpl.
    destruct Hcase as [(op & -> & Hn & Hin & ->) | (fr & -> & <- & Hin & ->)];
      simpl.
    + rewrite Hn, bool_decide_false; [done|]. set_solver.
    + rewrite bool_decide_false; [done|]. set_solver.
Qed.

(** [X23]  [reduce_Definitions] raises 'short form is not allowed here'
    exactly when no name is repeated, the document has a short-form
    operation and more than one operation; the node the error points at is
    the first short-form operation of the document. *)
Theorem short_form_error_reported (kid : list Definition_) (msg : string)
    (node : OperationDefinition) :
  reduce_Definitions kid = Raised (GraphQLParserError msg node)
  ↔ NoDup (operation_names kid) ∧ NoDup (fragment_names kid)
    ∧ find_short kid = Some node
    ∧ 1 < length (operations kid)
    ∧ msg = "short form is not allowed here".
Proof.
  split.
  - intros Hraise.
    assert (Hnames : NoDup (operation_names kid) ∧ NoDup (fragment_names kid)).
    { destruct (loop_outcome kid (mkLocals None ∅ ∅))
        as [[Hfresh _] | [_ (name & entity & Hloop)]].
      - by apply names_fresh_init.
      - unfold reduce_Definitions in Hraise. rewrite Hloop in Hraise. done. }
    destruct Hnames as [Hon Hfn]. split; [done|]. split; [done|].
    rewrite reduce_Definitions_unique in Hraise by done.
    destruct (find_short kid) as [sh|]; [|done].
    destruct (Nat.ltb_spec 1 (length (operations kid))); [|done].
    by injection Hraise as <- <-.
  - intros (Hon & Hfn & Hshort & Hlen & ->).
    rewrite reduce_Definitions_unique, Hshort by done.
    by rewrite (proj2 (Nat.ltb_lt _ _)).
Qed.

(** *** The statements on sample documents *)

(** [(a: 1, b: 2, a: 3)] *)
Lemma repeated_name_reported_witness :
  reduce_LPAREN_ArgumentList_RPAREN
    [mkArgument "a" (IntegerLiteral 1); mkArgument "b" (IntegerLiteral 2);
     mkArgument "a" (IntegerLiteral 3)]
  = Raised (GraphQLUniquenessError "a" None).
Proof.
  apply (proj1 repeated_name_reported).
  exists [mkArgument "a" (IntegerLiteral 1);
          mkArgument "b" (IntegerLiteral 2)],
    (mkArgument "a" (IntegerLiteral 3)), [].
  split; [reflexivity|]. split; [|split; [|reflexivity]].
  - apply (bool_decide_unpack _). vm_compute. exact I.
  - apply (bool_decide_unpack _). vm_compute. exact I.
Defined.

(** [{ a } query Foo { a } query Foo { a }]: the repeated name is
    reported, not the short form. *)
Lemma uniqueness_error_reported_witness :
  reduce_Definitions
    [Operation sample_short; Operation sample_Foo; Operation sample_Foo]
  = Raised (GraphQLUniquenessError "Foo" (Some "operation")).
Proof.
  apply uniqueness_error_reported.
  exists [Operation sample_short; Operation sample_Foo],
    (Operation sample_Foo), [].
  split; [reflexivity|]. split; [|split].
  - apply (bool_decide_unpack _). vm_compute. exact I.
  - constructor.
  - left. exists sample_Foo. split; [reflexivity|]. split; [reflexivity|].
    split; [|reflexivity]. apply (bool_decide_unpack _). vm_compute. exact I.
Defined.

(** [{ a } query Foo { a }] *)
Lemma short_form_error_reported_witness :
  reduce_Definitions [Operation sample_short; Operation sample_Foo]
  = Raised (GraphQLParserError "short form is not allowed here" sample_short).
Proof.
  apply short_form_error_reported.
  split; [|split; [constructor|]].
  - apply (bool_decide_unpack _). vm_compute. exact I.
  - split; [reflexivity|]. split; [simpl; lia | reflexivity].
Defined.

End DocumentErrorProps.

(** ** Constant values *)

Module DocumentValuesProps.
Import Document DocumentValues.

(** Induction on values, through the lists of list and object literals. *)
Lemma Value_nested_ind (P : Value → Prop) :
  (∀ z, P (IntegerLiteral z)) →
  (∀ x, P (FloatLiteral x)) →
  (∀ b, P (BooleanLiteral b)) →
  (∀ x, P (StringLiteral x)) →
  (∀ x, P (EnumLiteral x)) →
  (∀ l, Forall P l → P (ListLiteral l)) →
  (∀ l, Forall (λ field, P field.2) l → P (ObjectLiteral l)) →
  (∀ x, P (Variable_ x)) →
  ∀ v, P v.
Proof.
  intros Hint Hfloat Hbool Hstr Henum Hlist Hobj Hvar.
  fix IH 1. intros [z|x|b|x|x|l|l|x].
  - apply Hint.
  - apply Hfloat.
  - apply Hbool.
  - apply Hstr.
  - apply Henum.
  - apply Hlist. induction l as [|v l IHl]; constructor; [apply IH | exact IHl].
  - apply Hobj. induction l as [|[k v] l IHl]; constructor;
      [apply IH | exact IHl].
  - apply Hvar.
Qed.

Lemma check_const_outcome_app (l1 l2 : list string) :
  check_const_outcome (l1 ++ l2)
  = bind (check_const_outcome l1) (λ _, check_const_outcome l2).
Proof. by destruct l1. Qed.

Lemma check_const_variables (v : Value) :
  check_const v = check_const_outcome (variables v).
Proof.
  induction v as [z|x|b|x|x|l IHl|l IHl|x] using Value_nested_ind;
    try reflexivity.
  - simpl. induction IHl as [|v l Hv _ IH]; [done|].
    rewrite check_const_outcome_app, Hv, IH. reflexivity.
  - simpl. induction IHl as [|[k v] l Hv _ IH]; [done|].
    rewrite check_const_outcome_app. simpl in Hv. simpl.
    rewrite Hv, IH. reflexivity.
Qed.

(** [X24]  [check_const] returns exactly on the values in which no
    variable occurs, at any depth of list and object literals; otherwise it
    raises 'unexpected variable, must be a constant value' pointing at the
    leftmost variable.  [DefaultValue.reduce_EQUAL_BaseValue] returns the
    value unchanged in the first case and raises the same error in the
    second. *)
Theorem check_const_first_variable (v : Value) :
  (variables v = [] →
   check_const v = Returned tt ∧ reduce_EQUAL_BaseValue v = Returned v)
  ∧ (∀ x rest, variables v = x :: rest →
       let e := GraphQLParserError
                  "unexpected variable, must be a constant value"
                  (Variable_ x) in
       check_const v = Raised e ∧ reduce_EQUAL_BaseValue v = Raised e).
Proof.
  unfold reduce_EQUAL_BaseValue. rewrite check_const_variables. split.
  - by intros ->.
  - by intros x rest ->.
Qed.

(** In [[1, {a: $x}, $y]] the variable reported is [$x]. *)
Lemma check_const_first_variable_witness :
  check_const sample_value
  = Raised (GraphQLParserError
              "unexpected variable, must be a constant value" (Variable_ "x")).
Proof.
  exact (proj1 (proj2 (check_const_first_variable sample_value)
                  "x" ["y"] eq_refl)).
Defined.

End DocumentValuesProps.
